(** * Newton-Simulator: the particle engine, embedded and checked

    The development follows the TypeScript sources:
    - [types.ts] (the records [Particle] and [SimulationConfig], the
      palette enumeration),
    - [services/physicsEngine.ts] (class [PhysicsEngine]: [init],
      [generateColor], [refreshColors], [setConfig], [updateDimensions],
      [step], [applyAttractor]),
    - [services/webGpuEngine.ts] (the WGSL compute kernel [main] and the
      parameter block written by [WebGpuEngine.render]).

    Number model.  A JavaScript [number] is read as a real number: [+],
    [-], [*], [/] and [Math.sqrt] are the operations of [R], comparisons
    are decided with [Rlt_dec]/[Rgt_dec].  Rounding, infinities and NaN
    are outside the model; wherever the source divides, the theorems that
    depend on the quotient carry the hypothesis that the divisor is not
    zero (in JavaScript [0/0] is NaN, in [R] it is [0]).

    [Math.random()] is a read from an explicit stream of draws with a
    cursor, threaded through every operation that samples. *)

From Stdlib Require Import Reals Lra Lia ZArith Bool.
From Stdlib Require Import Zfloor.
From stdpp Require Import base list.

Local Open Scope R_scope.

(** ** Data model ([types.ts]) *)

Inductive ColorPalette : Type :=
| fireworks | cyberpunk | ocean | inferno | monochrome | emerald.

#[global] Instance ColorPalette_eq_dec : EqDecision ColorPalette.
Proof. solve_decision. Defined.

(** The engine stores a colour as the string
    [hsla(<hue>, <saturation>%, <lightness>%, 1.0)]; the three numbers
    that determine the string are kept. *)
Record Color : Type := hsla {
  hue : Z;
  saturation : Z;
  lightness : Z
}.

Record Particle : Type := mkParticle {
  id : nat;
  x : R;
  y : R;
  vx : R;
  vy : R;
  mass : R;
  radius : R;
  color : Color
}.

(** [particleCount] comes from [parseInt] of a range input and counts
    particles: a natural number. *)
Record SimulationConfig : Type := mkConfig {
  G : R;
  friction : R;
  particleCount : nat;
  collisionElasticity : R;
  trailLength : R;
  showTrails : bool;
  paused : bool;
  mouseStrength : R;
  palette : ColorPalette
}.

(** Field updates written in place by the engine. *)
Definition set_velocity (p : Particle) (vx' vy' : R) : Particle :=
  mkParticle (id p) (x p) (y p) vx' vy' (mass p) (radius p) (color p).

Definition set_color (p : Particle) (c : Color) : Particle :=
  mkParticle (id p) (x p) (y p) (vx p) (vy p) (mass p) (radius p) c.

(** What a recolouring must leave alone. *)
Definition kinematics (p : Particle) : nat * R * R * R * R * R * R :=
  (id p, x p, y p, vx p, vy p, mass p, radius p).

(** ** The source of randomness *)

Record Rng : Type := mkRng {
  draws : nat -> R;
  cursor : nat
}.

(** One call of [Math.random()]. *)
Definition random (g : Rng) : R * Rng :=
  (draws g (cursor g), mkRng (draws g) (S (cursor g))).

(** [Math.floor] *)
Definition floor (r : R) : Z := Zfloor r.

(** ** [PhysicsEngine] *)

Record PhysicsEngine : Type := mkEngine {
  particles : list Particle;
  config : SimulationConfig;
  width : R;
  height : R
}.

Definition with_particles (e : PhysicsEngine) (ps : list Particle) : PhysicsEngine :=
  mkEngine ps (config e) (width e) (height e).

Definition with_config (e : PhysicsEngine) (c : SimulationConfig) : PhysicsEngine :=
  mkEngine (particles e) c (width e) (height e).

(** [generateColor]: the hue, saturation and lightness start at 0, 100
    and 50, and the palette's case of the [switch] overwrites some. *)
Definition generateColor (pal : ColorPalette) (g : Rng) : Color * Rng :=
  match pal with
  | fireworks =>
      let (r, g) := random g in
      (hsla (floor (r * 360)) 100 50, g)
  | cyberpunk =>
      let (c, g) := random g in
      let (r, g) := random g in
      if Rgt_dec c 0.5
      then (hsla (floor (r * 40) + 280) 100 50, g)
      else (hsla (floor (r * 40) + 180) 100 50, g)
  | ocean =>
      let (r, g) := random g in
      (hsla (floor (r * 60) + 170) 100 50, g)
  | inferno =>
      let (r, g) := random g in
      (hsla (floor (r * 50)) 100 50, g)
  | emerald =>
      let (r, g) := random g in
      (hsla (floor (r * 60) + 100) 100 50, g)
  | monochrome =>
      let (r, g) := random g in
      (hsla 0 0 (floor (r * 50) + 50), g)
  end.

(** One iteration of the loop of [init]: the mass is sampled first, then
    the fields of the object literal in their written order. *)
Definition spawn (i : nat) (pal : ColorPalette) (w h : R) (g : Rng) : Particle * Rng :=
  let (m1, g) := random g in
  let (m2, g) := random g in
  let m := m1 * m2 * 25 + 2 in
  let (rx, g) := random g in
  let (ry, g) := random g in
  let (rvx, g) := random g in
  let (rvy, g) := random g in
  let (c, g) := generateColor pal g in
  (mkParticle i (rx * w) (ry * h) ((rvx - 0.5) * 2) ((rvy - 0.5) * 2)
              m (sqrt m * 0.5) c, g).

(** [for (let i = 0; i < particleCount; i++) particles.push(...)]:
    [k] iterations are left, [i] is the loop variable, [acc] the array. *)
Fixpoint init_loop (k i : nat) (pal : ColorPalette) (w h : R)
    (acc : list Particle) (g : Rng) : list Particle * Rng :=
  match k with
  | O => (acc, g)
  | S k' =>
      let (p, g') := spawn i pal w h g in
      init_loop k' (S i) pal w h (acc ++ [p]) g'
  end.

Definition init (e : PhysicsEngine) (g : Rng) : PhysicsEngine * Rng :=
  let (ps, g') :=
    init_loop (particleCount (config e)) 0 (palette (config e))
              (width e) (height e) [] g in
  (with_particles e ps, g').

(** The constructor stores its arguments and calls [init]. *)
Definition new_engine (c : SimulationConfig) (w h : R) (g : Rng) : PhysicsEngine * Rng :=
  init (mkEngine [] c w h) g.

(** [refreshColors]: every particle, in array order, gets a new colour. *)
Fixpoint recolor_all (pal : ColorPalette) (ps : list Particle) (g : Rng)
    : list Particle * Rng :=
  match ps with
  | [] => ([], g)
  | p :: ps' =>
      let (c, g1) := generateColor pal g in
      let (qs, g2) := recolor_all pal ps' g1 in
      (set_color p c :: qs, g2)
  end.

Definition refreshColors (e : PhysicsEngine) (g : Rng) : PhysicsEngine * Rng :=
  let (ps, g') := recolor_all (palette (config e)) (particles e) g in
  (with_particles e ps, g').

(** [setConfig]: the count and the palette seen before the assignment
    decide between [init], [refreshColors] and nothing more. *)
Definition setConfig (c : SimulationConfig) (e : PhysicsEngine) (g : Rng)
    : PhysicsEngine * Rng :=
  let prevCount := length (particles e) in
  let prevPalette := palette (config e) in
  let e' := with_config e c in
  if negb (Nat.eqb prevCount (particleCount c)) then init e' g
  else if negb (bool_decide (prevPalette = palette c)) then refreshColors e' g
  else (e', g).

Definition updateDimensions (w h : R) (e : PhysicsEngine) : PhysicsEngine :=
  mkEngine (particles e) (config e) w h.

Definition reset (e : PhysicsEngine) (g : Rng) : PhysicsEngine * Rng := init e g.

(** ** [step] *)

(** [const softening = 20] *)
Definition softening : R := 20.

(** The scalar [force] of the inner loop body for the ordered pair
    ([p1], [p2]). *)
Definition force_scalar (G0 : R) (p1 p2 : Particle) : R :=
  let dx := x p2 - x p1 in
  let dy := y p2 - y p1 in
  let distSq := dx * dx + dy * dy + softening in
  (G0 * mass p1 * mass p2) / distSq.

(** The two terms the inner loop body adds to [fx] and [fy]. *)
Definition pair_force (G0 : R) (p1 p2 : Particle) : R * R :=
  let dx := x p2 - x p1 in
  let dy := y p2 - y p1 in
  let distSq := dx * dx + dy * dy + softening in
  let dist := sqrt distSq in
  let force := (G0 * mass p1 * mass p2) / distSq in
  ((force * dx) / dist, (force * dy) / dist).

(** The inner loop [for (let j = 0; j < n; j++)] of particle [i]: [l] is
    the part of the array from index [j] on, [f] the pair ([fx], [fy]). *)
Fixpoint accumulate (G0 : R) (i : nat) (p1 : Particle) (j : nat)
    (l : list Particle) (f : R * R) : R * R :=
  match l with
  | [] => f
  | p2 :: l' =>
      let f' :=
        if Nat.eqb i j then f
        else (fst f + fst (pair_force G0 p1 p2), snd f + snd (pair_force G0 p1 p2)) in
      accumulate G0 i p1 (S j) l' f'
  end.

(** The force on particle [i] as the array [ps] stands. *)
Definition net_force (G0 : R) (ps : list Particle) (i : nat) (p1 : Particle) : R * R :=
  accumulate G0 i p1 0 ps (0, 0).

(** The outer loop [for (let i = 0; i < n; i++)]: the velocity of
    particle [i] is written into the array before particle [i+1] is
    looked at.  [k] iterations are left.  The index is below the length
    throughout ([accelerate_loop_spec]), so the [None] branch is not
    taken. *)
Fixpoint accelerate_loop (G0 : R) (k i : nat) (ps : list Particle) : list Particle :=
  match k with
  | O => ps
  | S k' =>
      match ps !! i with
      | None => ps
      | Some p1 =>
          let f := net_force G0 ps i p1 in
          let p1' := set_velocity p1 (vx p1 + fst f / mass p1)
                                     (vy p1 + snd f / mass p1) in
          accelerate_loop G0 k' (S i) (<[i := p1']> ps)
      end
  end.

(** The body of the second loop: friction, move, then the walls, the
    horizontal pair first. *)
Definition move (fr el w h : R) (p : Particle) : Particle :=
  let vx1 := vx p * fr in
  let vy1 := vy p * fr in
  let x1 := x p + vx1 in
  let y1 := y p + vy1 in
  let '(x2, vx2) :=
    if Rlt_dec x1 (radius p) then (radius p, vx1 * - el)
    else if Rgt_dec x1 (w - radius p) then (w - radius p, vx1 * - el)
    else (x1, vx1) in
  let '(y2, vy2) :=
    if Rlt_dec y1 (radius p) then (radius p, vy1 * - el)
    else if Rgt_dec y1 (h - radius p) then (h - radius p, vy1 * - el)
    else (y1, vy1) in
  mkParticle (id p) x2 y2 vx2 vy2 (mass p) (radius p) (color p).

Definition step (e : PhysicsEngine) : PhysicsEngine :=
  if paused (config e) then e
  else
    let n := length (particles e) in
    let G0 := G (config e) in
    let fr := 1 - friction (config e) in
    let el := collisionElasticity (config e) in
    let ps1 := accelerate_loop G0 n 0 (particles e) in
    with_particles e (map (move fr el (width e) (height e)) ps1).

(** ** [applyAttractor] *)

Definition attract (ax ay strength : R) (p : Particle) : Particle :=
  let dx := ax - x p in
  let dy := ay - y p in
  let distSq := dx * dx + dy * dy + 100 in
  let dist := sqrt distSq in
  let force := (strength * mass p) / distSq in
  set_velocity p (vx p + (force * dx) / dist / mass p)
                 (vy p + (force * dy) / dist / mass p).

Definition applyAttractor (ax ay strength : R) (e : PhysicsEngine) : PhysicsEngine :=
  if paused (config e) then e
  else with_particles e (map (attract ax ay strength) (particles e)).

(** Calls a caller can make between two configuration changes. *)
Inductive Call : Type :=
| CallStep
| CallAttractor (ax ay strength : R).

Definition run_call (e : PhysicsEngine) (c : Call) : PhysicsEngine :=
  match c with
  | CallStep => step e
  | CallAttractor ax ay s => applyAttractor ax ay s e
  end.

Definition run_calls (cs : list Call) (e : PhysicsEngine) : PhysicsEngine :=
  fold_left run_call cs e.

(** ** The compute kernel of [webGpuEngine.ts] *)

(** WGSL vectors of two components and the built-ins the kernel uses. *)
Definition vsub (a b : R * R) : R * R := (fst a - fst b, snd a - snd b).
Definition vadd (a b : R * R) : R * R := (fst a + fst b, snd a + snd b).
Definition vscale (a : R * R) (k : R) : R * R := (fst a * k, snd a * k).
Definition vdiv (a : R * R) (k : R) : R * R := (fst a / k, snd a / k).
Definition dot (a b : R * R) : R := fst a * fst b + snd a * snd b.
(** [normalize(v)] is [v / length(v)]. *)
Definition normalize (a : R * R) : R * R :=
  (fst a / sqrt (dot a a), snd a / sqrt (dot a a)).

Module WebGpu.

(** The buffer record; [padding] and [color] are carried along and
    neither read nor changed by the kernel. *)
Record Particle : Type := mkParticle {
  pos : R * R;
  vel : R * R;
  mass : R
}.

(** The parameter block.  [render] writes [particleCount] as a 32-bit
    float into a slot the kernel reads as an unsigned integer; here the
    kernel sees the count itself. *)
Record SimParams : Type := mkParams {
  G : R;
  friction : R;
  mousePos : R * R;
  mouseStrength : R;
  particleCount : nat;
  width : R;
  height : R;
  dt : R;
  elasticity : R
}.

(** The gravity loop of the worker [index], whose own record is [p],
    over the buffer [l], from slot [i] on. *)
Fixpoint gravity (params : SimParams) (index : nat) (p : Particle)
    (i : nat) (l : list Particle) (totalForce : R * R) : R * R :=
  match l with
  | [] => totalForce
  | other :: l' =>
      let totalForce' :=
        if Nat.eqb i index then totalForce
        else
          let diff := vsub (pos other) (pos p) in
          let distSq := dot diff diff + 20 in
          let forceMag := (G params * mass p * mass other) / distSq in
          vadd totalForce (vscale (normalize diff) forceMag) in
      gravity params index p (S i) l' totalForce'
  end.

(** The entry point [main] for the worker [index]: what it stores into
    its slot when the buffer it reads is [buf], or [None] when it
    returns without storing.  The loop runs over the first
    [particleCount] slots.  The two vertical bounce lines of the kernel
    assign to [p.vy], a member the struct does not have; they are read
    as the vertical velocity, like the horizontal lines above them. *)
Definition main (params : SimParams) (buf : list Particle) (index : nat)
    : option Particle :=
  if negb (Nat.ltb index (particleCount params)) then None
  else
    match buf !! index with
    | None => None
    | Some p =>
        let totalForce :=
          gravity params index p 0 (take (particleCount params) buf) (0, 0) in
        let mouseDiff := vsub (mousePos params) (pos p) in
        let mouseDistSq := dot mouseDiff mouseDiff + 100 in
        let mouseForceMag := (mouseStrength params * mass p) / mouseDistSq in
        let totalForce := vadd totalForce (vscale (normalize mouseDiff) mouseForceMag) in
        let accel := vdiv totalForce (mass p) in
        let v := vadd (vel p) (vscale accel (dt params)) in
        let v := vscale v (1 - friction params) in
        let q := vadd (pos p) v in
        let radius := sqrt (mass p) * 0.5 in
        let '(qx, vx') :=
          if Rlt_dec (fst q) radius then (radius, fst v * - elasticity params)
          else if Rgt_dec (fst q) (width params - radius)
               then (width params - radius, fst v * - elasticity params)
               else (fst q, fst v) in
        let '(qy, vy') :=
          if Rlt_dec (snd q) radius then (radius, snd v * - elasticity params)
          else if Rgt_dec (snd q) (height params - radius)
               then (height params - radius, snd v * - elasticity params)
               else (snd q, snd v) in
        Some (mkParticle (qx, qy) (vx', vy') (mass p))
    end.

End WebGpu.

(** The parameter block [WebGpuEngine.render] writes for a configuration,
    a canvas size and a pointer state. *)
Definition render_params (c : SimulationConfig) (w h : R)
    (mx my : R) (active : bool) : WebGpu.SimParams :=
  WebGpu.mkParams (G c) (friction c) (mx, my)
                  (if active then mouseStrength c else 0)
                  (particleCount c) w h 0.5 (collisionElasticity c).

(** The buffer record of a particle of the sequential engine. *)
Definition to_gpu (p : Particle) : WebGpu.Particle :=
  WebGpu.mkParticle (x p, y p) (vx p, vy p) (mass p).

(** ** Reachable engines *)

(** The array holds as many particles as the configuration asks for. *)
Definition count_ok (e : PhysicsEngine) : Prop :=
  length (particles e) = particleCount (config e).

(** The engines a caller can get: the constructor, then any of the
    public methods. *)
Inductive Reachable : PhysicsEngine -> Prop :=
| reach_new c w h g : Reachable (fst (new_engine c w h g))
| reach_setConfig c e g : Reachable e -> Reachable (fst (setConfig c e g))
| reach_refreshColors e g : Reachable e -> Reachable (fst (refreshColors e g))
| reach_reset e g : Reachable e -> Reachable (fst (reset e g))
| reach_updateDimensions w h e : Reachable e -> Reachable (updateDimensions w h e)
| reach_step e : Reachable e -> Reachable (step e)
| reach_applyAttractor ax ay s e : Reachable e -> Reachable (applyAttractor ax ay s e).

(** The radius is the function of the mass that [init] uses. *)
Definition radius_ok (p : Particle) : Prop := radius p = sqrt (mass p) * 0.5.

(** The colours of [n] calls of [generateColor] in a row. *)
Fixpoint color_draws (pal : ColorPalette) (n : nat) (g : Rng) : list Color :=
  match n with
  | O => []
  | S n' => let (c, g') := generateColor pal g in c :: color_draws pal n' g'
  end.

(** ** What the loops of [step] read and write *)

(** What the force loops read of a particle. *)
Definition geom (p : Particle) : R * R * R := (x p, y p, mass p).

(** The update of particle [i] against the array [orig]. *)
Definition accel (G0 : R) (orig : list Particle) (i : nat) (p : Particle) : Particle :=
  let f := net_force G0 orig i p in
  set_velocity p (vx p + fst f / mass p) (vy p + snd f / mass p).

(** No wall is reached by the move of [p]: none of the four tests of the
    second loop of [step] fires. *)
Definition free_flight (fr w h : R) (p : Particle) : Prop :=
  radius p <= x p + vx p * fr <= w - radius p /\
  radius p <= y p + vy p * fr <= h - radius p.

(** The particle sits inside the walls. *)
Definition inside (w h : R) (p : Particle) : Prop :=
  radius p <= x p <= w - radius p /\ radius p <= y p <= h - radius p.

(** The domain is at least as wide and as high as the particle. *)
Definition fits (w h : R) (p : Particle) : Prop :=
  2 * radius p <= w /\ 2 * radius p <= h.

(** The Euclidean length of a vector. *)
Definition norm (v : R * R) : R := sqrt (dot v v).

(** ** Concrete engines *)

Definition red : Color := hsla 0 100 50.

(** The configuration [App.tsx] starts with, the count, the friction,
    the elasticity and the pause flag left open. *)
Definition app_config (n : nat) (fr el : R) (stop : bool) : SimulationConfig :=
  mkConfig 1.2 fr n el 35 true stop 10000 fireworks.

(** Two bodies of masses 10 and 20, the second displaced by (3, 4) from
    the first, at rest, far from the walls. *)
Definition body1 : Particle := mkParticle 0 100 100 0 0 10 (sqrt 10 * 0.5) red.
Definition body2 : Particle := mkParticle 1 103 104 0 0 20 (sqrt 20 * 0.5) red.

Definition two_body_config : SimulationConfig :=
  mkConfig 1 0 2 0.7 35 true false 10000 fireworks.

Definition two_body : PhysicsEngine :=
  mkEngine [body1; body2] two_body_config 1000 1000.

(** One particle of mass 4 and radius 1, one unit left of the place where
    it would touch the left wall, moving left. *)
Definition edge_particle : Particle := mkParticle 0 (1 - 1) 50 (-2) 0 4 1 red.

Definition edge_engine (fr : R) : PhysicsEngine :=
  mkEngine [edge_particle] (app_config 1 fr 0.5 false) 800 600.

(** A generator whose every draw is 0. *)
Definition zero_draws : Rng := mkRng (fun _ => 0) 0.

(** An engine built while the simulation is paused. *)
Definition paused_engine : PhysicsEngine :=
  fst (new_engine (app_config 1 0.005 0.7 true) 800 600 zero_draws).

(** A domain narrower than the particle it holds. *)
Definition narrow_engine : PhysicsEngine :=
  mkEngine [edge_particle] (app_config 1 0 0.5 false) 1 600.

(** The parameter block and the buffer of the kernel for the two bodies,
    the pointer inactive. *)
Definition two_body_params : WebGpu.SimParams :=
  render_params two_body_config 1000 1000 0 0 false.

Definition two_body_buffer : list WebGpu.Particle := map to_gpu [body1; body2].

(** ** Sampling: what a stream of draws from [0, 1) gives *)

(** Every draw lies in [0, 1), as [Math.random()] promises. *)
Definition unit_draws (g : Rng) : Prop := forall n, 0 <= draws g n < 1.

(** The table of the palettes: the hue, saturation and lightness a
    colour of the palette can have. *)
Definition in_palette (pal : ColorPalette) (c : Color) : Prop :=
  match pal with
  | fireworks => (0 <= hue c < 360)%Z /\ saturation c = 100%Z /\ lightness c = 50%Z
  | cyberpunk => ((280 <= hue c < 320)%Z \/ (180 <= hue c < 220)%Z) /\
                 saturation c = 100%Z /\ lightness c = 50%Z
  | ocean => (170 <= hue c < 230)%Z /\ saturation c = 100%Z /\ lightness c = 50%Z
  | inferno => (0 <= hue c < 50)%Z /\ saturation c = 100%Z /\ lightness c = 50%Z
  | emerald => (100 <= hue c < 160)%Z /\ saturation c = 100%Z /\ lightness c = 50%Z
  | monochrome => hue c = 0%Z /\ saturation c = 0%Z /\ (50 <= lightness c < 100)%Z
  end.

(** The number of draws one colour takes. *)
Definition color_cost (pal : ColorPalette) : nat :=
  match pal with cyberpunk => 2 | _ => 1 end.

(** The stream [n] draws later. *)
Definition skip (n : nat) (g : Rng) : Rng := mkRng (draws g) (cursor g + n).

(** The ranges [init] samples a particle from, for a domain [w] by [h]. *)
Definition freshly_sampled (w h : R) (p : Particle) : Prop :=
  2 <= mass p < 27 /\
  0 <= x p < w /\ 0 <= y p < h /\
  -1 <= vx p < 1 /\ -1 <= vy p < 1.

(** What a tick leaves alone in a particle, and what the attractor does. *)
Definition body (p : Particle) : nat * R * R * Color :=
  (id p, mass p, radius p, color p).

Definition placed (p : Particle) : nat * R * R * R * R * Color :=
  (id p, x p, y p, mass p, radius p, color p).

(** The particle at index [i] carries the id [i]. *)
Definition ids_ok (ps : list Particle) : Prop :=
  forall i p, ps !! i = Some p -> id p = i.

(** Id, mass and radius: what no method but [init] writes. *)
Definition tag (p : Particle) : nat * R * R := (id p, mass p, radius p).

(** What holds of every engine a caller can get. *)
Definition engine_ok (e : PhysicsEngine) : Prop :=
  count_ok e /\ Forall radius_ok (particles e) /\ ids_ok (particles e).

(** Every colour belongs to the configured palette. *)
Definition colors_ok (e : PhysicsEngine) : Prop :=
  Forall (fun p => in_palette (palette (config e)) (color p)) (particles e).

(** ** Sums over the array *)

Definition vsum (l : list (R * R)) : R * R := fold_right vadd (0, 0) l.

(** The sum of the forces the velocity loop of [step] accumulates, one
    per particle. *)
Definition total_force (G0 : R) (ps : list Particle) : R * R :=
  vsum (imap (fun i p => net_force G0 ps i p) ps).

(** Mass times velocity, summed. *)
Definition momentum (ps : list Particle) : R * R :=
  vsum (map (fun p => (mass p * vx p, mass p * vy p)) ps).

(** The physics of one frame of [animate] in [App.tsx]: the attractor
    when the pointer is over the canvas, then [step]. *)
Definition frame (mx my : R) (active : bool) (strength : R) (e : PhysicsEngine)
    : PhysicsEngine :=
  step (if active then applyAttractor mx my strength e else e).

(** ** The host side of [webGpuEngine.ts] *)

Module WebGpuEngine.

(** The fields of the class that hold data; the pipelines, bind groups
    and the canvas context are drawing equipment and left out.
    [device] says whether a device has been acquired, [particleBuffer]
    holds the floats last written to the particle buffer. *)
Record State : Type := mkState {
  device : bool;
  particleBuffer : option (list R);
  config : SimulationConfig;
  width : R;
  height : R
}.

(** The constructor. *)
Definition new (c : SimulationConfig) : State := mkState false None c 0 0.

(** The closure [hue2rgb] of [hslToRgb], with the [p] and [q] it
    captures. *)
Definition hue2rgb (p q t : R) : R :=
  let t := if Rlt_dec t 0 then t + 1 else t in
  let t := if Rgt_dec t 1 then t - 1 else t in
  if Rlt_dec t (1 / 6) then p + (q - p) * 6 * t
  else if Rlt_dec t (1 / 2) then q
  else if Rlt_dec t (2 / 3) then p + (q - p) * (2 / 3 - t) * 6
  else p.

Definition hslToRgb (h s l : R) : list R :=
  if Req_dec_T s 0 then [l; l; l; 1]
  else
    let q := if Rlt_dec l 0.5 then l * (1 + s) else l + s - l * s in
    let p := 2 * l - q in
    [hue2rgb p q (h + 1 / 3); hue2rgb p q h; hue2rgb p q (h - 1 / 3); 1].

(** [generateColor]: [h], [s] and [l] start at 0, 100 and 50. *)
Definition generateColor (pal : ColorPalette) (g : Rng) : list R * Rng :=
  match pal with
  | fireworks =>
      let (r, g) := random g in (hslToRgb (r * 360 / 360) (100 / 100) (50 / 100), g)
  | cyberpunk =>
      let (c, g) := random g in
      let (r, g) := random g in
      if Rgt_dec c 0.5
      then (hslToRgb ((r * 40 + 280) / 360) (100 / 100) (50 / 100), g)
      else (hslToRgb ((r * 40 + 180) / 360) (100 / 100) (50 / 100), g)
  | ocean =>
      let (r, g) := random g in
      (hslToRgb ((r * 60 + 170) / 360) (100 / 100) (50 / 100), g)
  | inferno =>
      let (r, g) := random g in (hslToRgb (r * 50 / 360) (100 / 100) (50 / 100), g)
  | emerald =>
      let (r, g) := random g in
      (hslToRgb ((r * 60 + 100) / 360) (100 / 100) (50 / 100), g)
  | monochrome =>
      let (r, g) := random g in
      (hslToRgb (0 / 360) (0 / 100) ((r * 50 + 50) / 100), g)
  end.

(** The twelve floats one iteration of the loop of [setupBuffers] leaves
    in the array: slots 6 and 7 are never written and keep the 0 the
    array was created with. *)
Definition record_floats (pal : ColorPalette) (w h : R) (g : Rng) : list R * Rng :=
  let (rx, g) := random g in
  let (ry, g) := random g in
  let (rvx, g) := random g in
  let (rvy, g) := random g in
  let (m1, g) := random g in
  let (m2, g) := random g in
  let m := m1 * m2 * 25 + 2 in
  let (c, g) := generateColor pal g in
  ([rx * w; ry * h; (rvx - 0.5) * 2; (rvy - 0.5) * 2; m; 0; 0; 0;
    nth 0 c 0; nth 1 c 0; nth 2 c 0; nth 3 c 0], g).

(** The records of [k] iterations, one after the other. *)
Fixpoint initial_records (k : nat) (pal : ColorPalette) (w h : R) (g : Rng)
    : list (list R) * Rng :=
  match k with
  | O => ([], g)
  | S k' =>
      let (r, g1) := record_floats pal w h g in
      let (rs, g2) := initial_records k' pal w h g1 in
      (r :: rs, g2)
  end.

(** [const particleCount = 1000] *)
Definition capacity : nat := 1000.

Definition setupBuffers (e : State) (g : Rng) : State * Rng :=
  if negb (device e) then (e, g)
  else
    let (rs, g') := initial_records capacity (palette (config e)) (width e) (height e) g in
    (mkState (device e) (Some (concat rs)) (config e) (width e) (height e), g').

(** [init]: [None] is the exception thrown without an adapter; [cw] and
    [ch] are the size of the canvas. *)
Definition init (adapter : bool) (cw ch : R) (e : State) (g : Rng)
    : option (State * Rng) :=
  if negb adapter then None
  else Some (setupBuffers (mkState true (particleBuffer e) (config e) cw ch) g).

Definition setConfig (c : SimulationConfig) (e : State) (g : Rng) : State * Rng :=
  let oldPalette := palette (config e) in
  let oldCnt := particleCount (config e) in
  let e' := mkState (device e) (particleBuffer e) c (width e) (height e) in
  if negb (bool_decide (oldPalette = palette c)) || negb (Nat.eqb oldCnt (particleCount c))
  then setupBuffers e' g
  else (e', g).

(** [Math.ceil(particleCount / 64)], the number of workgroups of 64
    workers [render] dispatches. *)
Definition workgroups (c : SimulationConfig) : Z := Zceil (INR (particleCount c) / 64).

End WebGpuEngine.

(** A well-formed record of the particle buffer: mass, velocity and
    colour in their ranges, the unused slots 0. *)
Definition record_ok (r : list R) : Prop :=
  exists px py vx0 vy0 m c0 c1 c2,
    r = [px; py; vx0; vy0; m; 0; 0; 0; c0; c1; c2; 1] /\
    2 <= m < 27 /\ -1 <= vx0 < 1 /\ -1 <= vy0 < 1 /\
    0 <= c0 <= 1 /\ 0 <= c1 <= 1 /\ 0 <= c2 <= 1.

(** A colour of the host side: red, green, blue in [0, 1], alpha 1. *)
Definition rgba_ok (c : list R) : Prop :=
  exists r gr b, c = [r; gr; b; 1] /\ 0 <= r <= 1 /\ 0 <= gr <= 1 /\ 0 <= b <= 1.

(** * Lemmas *)

Section InitLoop.
Variables (pal : ColorPalette) (w h : R).

Lemma spawn_radius i g : radius_ok (fst (spawn i pal w h g)).
Proof.
  unfold spawn, radius_ok.
  repeat match goal with |- context [random ?g0] => destruct (random g0) end.
  destruct (generateColor pal _). reflexivity.
Qed.

Lemma spawn_id i g : id (fst (spawn i pal w h g)) = i.
Proof.
  unfold spawn.
  repeat match goal with |- context [random ?g0] => destruct (random g0) end.
  destruct (generateColor pal _). reflexivity.
Qed.

Lemma init_loop_length k : forall i acc g,
  length (fst (init_loop k i pal w h acc g)) = (length acc + k)%nat.
Proof.
  induction k as [|k IH]; intros i acc g; simpl.
  - lia.
  - destruct (spawn i pal w h g) as [p g'].
    rewrite IH, length_app. simpl. lia.
Qed.

Lemma init_loop_Forall (P : Particle -> Prop) :
  (forall i g, P (fst (spawn i pal w h g))) ->
  forall k i acc g, Forall P acc -> Forall P (fst (init_loop k i pal w h acc g)).
Proof.
  intros HP k. induction k as [|k IH]; intros i acc g Hacc; simpl.
  - exact Hacc.
  - pose proof (HP i g) as Hp.
    destruct (spawn i pal w h g) as [p g']. simpl in Hp.
    apply IH. apply Forall_app. split; [exact Hacc|]. constructor; [exact Hp|constructor].
Qed.
End InitLoop.

Lemma init_particles e g :
  particles (fst (init e g)) =
  fst (init_loop (particleCount (config e)) 0 (palette (config e))
                 (width e) (height e) [] g).
Proof. unfold init. destruct (init_loop _ _ _ _ _ _ _). reflexivity. Qed.

Lemma init_config e g : config (fst (init e g)) = config e.
Proof. unfold init. destruct (init_loop _ _ _ _ _ _ _). reflexivity. Qed.

Lemma init_count_ok e g : count_ok (fst (init e g)).
Proof.
  unfold count_ok. rewrite init_particles, init_config, init_loop_length.
  reflexivity.
Qed.

Lemma recolor_all_spec pal : forall ps g,
  let qs := fst (recolor_all pal ps g) in
  length qs = length ps /\
  map kinematics qs = map kinematics ps /\
  map color qs = color_draws pal (length ps) g.
Proof.
  induction ps as [|p ps IH]; intros g; simpl.
  - auto.
  - destruct (generateColor pal g) as [c g1].
    specialize (IH g1). simpl in IH.
    destruct (recolor_all pal ps g1) as [qs g2]. simpl in *.
    destruct IH as (Hl & Hk & Hc).
    rewrite Hl, Hk, Hc. auto.
Qed.

Lemma refreshColors_particles e g :
  particles (fst (refreshColors e g)) =
  fst (recolor_all (palette (config e)) (particles e) g).
Proof. unfold refreshColors. destruct (recolor_all _ _ _). reflexivity. Qed.

Lemma refreshColors_config e g : config (fst (refreshColors e g)) = config e.
Proof. unfold refreshColors. destruct (recolor_all _ _ _). reflexivity. Qed.

(** The three branches of [setConfig]. *)
Lemma setConfig_reinit c e g :
  length (particles e) <> particleCount c ->
  setConfig c e g = init (with_config e c) g.
Proof.
  intros H. unfold setConfig.
  destruct (Nat.eqb_spec (length (particles e)) (particleCount c)); [contradiction|].
  reflexivity.
Qed.

Lemma setConfig_recolor c e g :
  length (particles e) = particleCount c ->
  palette (config e) <> palette c ->
  setConfig c e g = refreshColors (with_config e c) g.
Proof.
  intros Hn Hp. unfold setConfig.
  rewrite Hn, Nat.eqb_refl. simpl.
  rewrite bool_decide_eq_false_2 by exact Hp. reflexivity.
Qed.

Lemma setConfig_keep c e g :
  length (particles e) = particleCount c ->
  palette (config e) = palette c ->
  setConfig c e g = (with_config e c, g).
Proof.
  intros Hn Hp. unfold setConfig.
  rewrite Hn, Nat.eqb_refl. simpl.
  rewrite bool_decide_eq_true_2 by exact Hp. reflexivity.
Qed.

Lemma setConfig_count_ok c e g : count_ok (fst (setConfig c e g)).
Proof.
  destruct (decide (length (particles e) = particleCount c)) as [Hn|Hn].
  - destruct (decide (palette (config e) = palette c)) as [Hp|Hp].
    + rewrite setConfig_keep by assumption. exact Hn.
    + rewrite setConfig_recolor by assumption.
      unfold count_ok. rewrite refreshColors_particles, refreshColors_config.
      destruct (recolor_all_spec (palette (config (with_config e c)))
                  (particles (with_config e c)) g) as (Hl & _).
      rewrite Hl. exact Hn.
  - rewrite setConfig_reinit by assumption. apply init_count_ok.
Qed.

Lemma paused_step e : paused (config e) = true -> step e = e.
Proof. intros H. unfold step. rewrite H. reflexivity. Qed.

Lemma paused_applyAttractor ax ay s e :
  paused (config e) = true -> applyAttractor ax ay s e = e.
Proof. intros H. unfold applyAttractor. rewrite H. reflexivity. Qed.

(** ** The velocity loop of [step] *)

Lemma pair_force_geom G0 p1 p2 p2' :
  geom p2 = geom p2' -> pair_force G0 p1 p2 = pair_force G0 p1 p2'.
Proof.
  unfold geom, pair_force. intros H. injection H as Hx Hy Hm.
  rewrite Hx, Hy, Hm. reflexivity.
Qed.

Lemma accumulate_geom G0 i p1 : forall l l' j f,
  map geom l = map geom l' ->
  accumulate G0 i p1 j l f = accumulate G0 i p1 j l' f.
Proof.
  induction l as [|p l IH]; intros [|p' l'] j f H; simpl in H; try discriminate.
  - reflexivity.
  - assert (Hp : geom p = geom p') by congruence.
    assert (Hl : map geom l = map geom l') by congruence.
    cbn [accumulate]. rewrite (pair_force_geom G0 p1 p p' Hp). apply IH. exact Hl.
Qed.

Lemma geom_accel G0 orig i p : geom (accel G0 orig i p) = geom p.
Proof. reflexivity. Qed.

Lemma accelerate_loop_spec G0 orig : forall k i ps,
  map geom ps = map geom orig ->
  (i + k)%nat = length ps ->
  (forall j, (i <= j)%nat -> ps !! j = orig !! j) ->
  accelerate_loop G0 k i ps =
  take i ps ++ imap (fun j p => accel G0 orig (i + j) p) (drop i orig).
Proof.
  induction k as [|k IH]; intros i ps Hg Hlen Hsuf.
  - assert (Hlo : length orig = length ps).
    { rewrite <- (length_map geom orig), <- Hg, length_map. reflexivity. }
    simpl. rewrite Nat.add_0_r in Hlen. subst i.
    rewrite firstn_all, <- Hlo, drop_all. simpl. rewrite app_nil_r. reflexivity.
  - assert (Hlo : length orig = length ps).
    { rewrite <- (length_map geom orig), <- Hg, length_map. reflexivity. }
    assert (Hi : (i < length ps)%nat) by lia.
    destruct (lookup_lt_is_Some_2 ps i Hi) as [p1 Hp1].
    simpl. rewrite Hp1.
    assert (Ho : orig !! i = Some p1) by (rewrite <- Hsuf by lia; exact Hp1).
    unfold net_force. rewrite (accumulate_geom G0 i p1 ps orig 0 (0, 0) Hg).
    fold (net_force G0 orig i p1). fold (accel G0 orig i p1).
    rewrite IH.
    + rewrite (drop_S orig p1 i Ho). rewrite imap_cons.
      rewrite Nat.add_0_r.
      rewrite (take_S_r (<[i:=accel G0 orig i p1]> ps) i (accel G0 orig i p1)).
      2:{ apply list_lookup_insert_eq. exact Hi. }
      rewrite take_insert_ge by lia.
      rewrite <- app_assoc. simpl. f_equal. f_equal.
      apply imap_ext. intros j q _. simpl. f_equal. lia.
    + rewrite list_fmap_insert, geom_accel.
      rewrite list_insert_id; [exact Hg|].
      rewrite list_lookup_fmap, Hp1. reflexivity.
    + rewrite length_insert. lia.
    + intros j Hj. rewrite list_lookup_insert_ne by lia. apply Hsuf. lia.
Qed.

(** The loop equals the update of every particle against the array as it
    was before the tick. *)
Lemma accelerate_loop_imap G0 ps :
  accelerate_loop G0 (length ps) 0 ps = imap (accel G0 ps) ps.
Proof.
  rewrite (accelerate_loop_spec G0 ps) by auto.
  simpl. rewrite drop_0. apply imap_ext. intros; reflexivity.
Qed.

Lemma step_running e :
  paused (config e) = false ->
  particles (step e) =
  imap (fun i p => move (1 - friction (config e)) (collisionElasticity (config e))
                        (width e) (height e) (accel (G (config e)) (particles e) i p))
       (particles e).
Proof.
  intros H. unfold step. rewrite H. simpl.
  rewrite accelerate_loop_imap.
  change (map ?f ?l) with (f <$> l).
  rewrite fmap_imap. reflexivity.
Qed.

Lemma step_length e : length (particles (step e)) = length (particles e).
Proof.
  destruct (paused (config e)) eqn:Hp.
  - rewrite paused_step by exact Hp. reflexivity.
  - rewrite step_running by exact Hp. apply length_imap.
Qed.

Lemma step_config e : config (step e) = config e.
Proof. unfold step. destruct (paused (config e)); reflexivity. Qed.

Lemma applyAttractor_length ax ay s e :
  length (particles (applyAttractor ax ay s e)) = length (particles e).
Proof.
  unfold applyAttractor. destruct (paused (config e)); [reflexivity|].
  cbn [particles with_particles]. apply length_map.
Qed.

Lemma applyAttractor_config ax ay s e : config (applyAttractor ax ay s e) = config e.
Proof. unfold applyAttractor. destruct (paused (config e)); reflexivity. Qed.

(** Every engine a caller can get holds as many particles as its
    configuration asks for. *)
Lemma reachable_count_ok e : Reachable e -> count_ok e.
Proof.
  induction 1 as [c w h g|c e g _ _|e g _ IH|e g _ _|w h e _ IH|e _ IH|ax ay s e _ IH].
  - apply init_count_ok.
  - apply setConfig_count_ok.
  - unfold count_ok in *. rewrite refreshColors_particles, refreshColors_config.
    destruct (recolor_all_spec (palette (config e)) (particles e) g) as (Hl & _).
    rewrite Hl. exact IH.
  - apply init_count_ok.
  - exact IH.
  - unfold count_ok in *. rewrite step_length, step_config. exact IH.
  - unfold count_ok in *. rewrite applyAttractor_length, applyAttractor_config. exact IH.
Qed.

Lemma radius_move fr el w h p : radius (move fr el w h p) = radius p.
Proof.
  unfold move.
  destruct (Rlt_dec _ _); [|destruct (Rgt_dec _ _)];
    (destruct (Rlt_dec _ _); [|destruct (Rgt_dec _ _)]); reflexivity.
Qed.

Lemma move_inside fr el w h p : fits w h p -> inside w h (move fr el w h p).
Proof.
  unfold fits, inside, move. intros [Hw Hh].
  destruct (Rlt_dec (x p + vx p * fr) (radius p));
    [|destruct (Rgt_dec (x p + vx p * fr) (w - radius p))];
    (destruct (Rlt_dec (y p + vy p * fr) (radius p));
      [|destruct (Rgt_dec (y p + vy p * fr) (h - radius p))]);
    simpl; lra.
Qed.

Lemma move_free fr el w h p :
  free_flight fr w h p ->
  move fr el w h p =
  mkParticle (id p) (x p + vx p * fr) (y p + vy p * fr) (vx p * fr) (vy p * fr)
             (mass p) (radius p) (color p).
Proof.
  unfold free_flight, move. intros [[Hx1 Hx2] [Hy1 Hy2]].
  destruct (Rlt_dec (x p + vx p * fr) (radius p)); [lra|].
  destruct (Rgt_dec (x p + vx p * fr) (w - radius p)); [lra|].
  destruct (Rlt_dec (y p + vy p * fr) (radius p)); [lra|].
  destruct (Rgt_dec (y p + vy p * fr) (h - radius p)); [lra|].
  reflexivity.
Qed.

(** The left wall: the position is set to the radius and the velocity,
    already damped, changes sign and is scaled. *)
Lemma move_left_wall fr el w h p :
  x p + vx p * fr < radius p ->
  x (move fr el w h p) = radius p /\ vx (move fr el w h p) = vx p * fr * - el.
Proof.
  unfold move. intros H.
  destruct (Rlt_dec (x p + vx p * fr) (radius p)); [|lra].
  destruct (Rlt_dec _ _); [|destruct (Rgt_dec _ _)]; simpl; auto.
Qed.

Lemma sqrt_le_self a : 1 <= a -> 1 <= sqrt a <= a.
Proof.
  intros Ha. split.
  - rewrite <- sqrt_1 at 1. apply sqrt_le_1_alt. exact Ha.
  - rewrite <- (sqrt_square a) at 2 by lra. apply sqrt_le_1_alt. nra.
Qed.

(** ** The force law *)

Lemma softened_pos (dx dy s : R) : 0 < s -> 0 < dx * dx + dy * dy + s.
Proof. intros. nra. Qed.

(** [force_scalar] is the local [force] of the loop body. *)
Lemma pair_force_scalar G0 p1 p2 :
  pair_force G0 p1 p2 =
  let d2 := (x p2 - x p1) * (x p2 - x p1) + (y p2 - y p1) * (y p2 - y p1) + softening in
  (force_scalar G0 p1 p2 * (x p2 - x p1) / sqrt d2,
   force_scalar G0 p1 p2 * (y p2 - y p1) / sqrt d2).
Proof. reflexivity. Qed.

Lemma pair_force_opposite G0 p1 p2 :
  fst (pair_force G0 p1 p2) = - fst (pair_force G0 p2 p1) /\
  snd (pair_force G0 p1 p2) = - snd (pair_force G0 p2 p1).
Proof.
  unfold pair_force. cbn [fst snd].
  replace ((x p1 - x p2) * (x p1 - x p2) + (y p1 - y p2) * (y p1 - y p2) + softening)
    with ((x p2 - x p1) * (x p2 - x p1) + (y p2 - y p1) * (y p2 - y p1) + softening)
    by ring.
  unfold Rdiv. split; ring.
Qed.

Lemma force_scalar_sym G0 p1 p2 : force_scalar G0 p1 p2 = force_scalar G0 p2 p1.
Proof.
  unfold force_scalar.
  replace ((x p1 - x p2) * (x p1 - x p2) + (y p1 - y p2) * (y p1 - y p2) + softening)
    with ((x p2 - x p1) * (x p2 - x p1) + (y p2 - y p1) * (y p2 - y p1) + softening)
    by ring.
  unfold Rdiv. ring.
Qed.

(** The inner loop adds exactly the pair term of every slot but its own. *)
Lemma accumulate_app G0 i p1 : forall l1 l2 j f,
  accumulate G0 i p1 j (l1 ++ l2) f =
  accumulate G0 i p1 (j + length l1) l2 (accumulate G0 i p1 j l1 f).
Proof.
  induction l1 as [|q l1 IH]; intros l2 j f; cbn [accumulate app length].
  - rewrite Nat.add_0_r. reflexivity.
  - rewrite IH. f_equal. lia.
Qed.

(** Slot [j] of the array enters the sum of particle [i <> j] as the pair
    term of its occupant, once. *)
Lemma net_force_slot G0 i p1 l1 p2 l2 :
  i <> length l1 ->
  net_force G0 (l1 ++ p2 :: l2) i p1 =
  accumulate G0 i p1 (S (length l1)) l2
             (vadd (net_force G0 l1 i p1) (pair_force G0 p1 p2)).
Proof.
  intros H. unfold net_force. rewrite accumulate_app. cbn [accumulate Nat.add].
  destruct (Nat.eqb_spec i (length l1)); [contradiction|]. reflexivity.
Qed.

(** ** The attractor *)

Lemma attract_kick ax ay s p :
  mass p <> 0 ->
  let dx := ax - x p in
  let dy := ay - y p in
  let distSq := dx * dx + dy * dy + 100 in
  vx (attract ax ay s p) - vx p = s * dx / (distSq * sqrt distSq) /\
  vy (attract ax ay s p) - vy p = s * dy / (distSq * sqrt distSq).
Proof.
  intros Hm dx dy distSq.
  assert (Hd : 0 < distSq) by (unfold distSq; apply softened_pos; lra).
  assert (Hs : 0 < sqrt distSq) by (apply sqrt_lt_R0; exact Hd).
  unfold attract. fold dx dy distSq. cbn [vx vy set_velocity].
  split; field; repeat split; lra.
Qed.

(** * Properties of the engine *)

(** C5. While the configuration is paused, any sequence of [step] and
    [applyAttractor] calls returns the engine it was given: every
    particle keeps its position and its velocity (and every other
    field). *)
Theorem paused_calls_change_nothing (cs : list Call) (e : PhysicsEngine) :
  paused (config e) = true -> run_calls cs e = e.
Proof.
  intros Hp. unfold run_calls.
  induction cs as [|c cs IH]; simpl.
  - reflexivity.
  - destruct c as [|ax ay s]; simpl.
    + rewrite (paused_step e Hp). exact IH.
    + rewrite (paused_applyAttractor ax ay s e Hp). exact IH.
Qed.

Lemma paused_calls_witness :
  run_calls [CallStep; CallAttractor 5 5 10000; CallStep; CallStep]
            (mkEngine [body1; body2] (app_config 2 0.005 0.7 true) 800 600) =
  mkEngine [body1; body2] (app_config 2 0.005 0.7 true) 800 600.
Proof. apply paused_calls_change_nothing. reflexivity. Defined.

(** C6. [init] leaves exactly [particleCount] particles in the engine,
    whatever it held before, and every one of them has
    radius = sqrt(mass) * 0.5. *)
Theorem init_count_and_radius (c : SimulationConfig) (w h : R)
    (old : list Particle) (g : Rng) :
  let e' := fst (init (mkEngine old c w h) g) in
  length (particles e') = particleCount c /\
  Forall radius_ok (particles e').
Proof.
  cbv zeta. rewrite init_particles. cbn [config width height particles].
  split.
  - rewrite init_loop_length. reflexivity.
  - apply init_loop_Forall.
    + intros i g0. apply spawn_radius.
    + constructor.
Qed.

(** C7. A configuration with the engine's count and another palette
    keeps the number of particles and the id, position, velocity, mass
    and radius of each; the colours are those of successive calls of
    [generateColor] with the new palette. *)
Theorem palette_change_recolors_only (c : SimulationConfig) (e : PhysicsEngine) (g : Rng) :
  count_ok e ->
  particleCount c = particleCount (config e) ->
  palette c <> palette (config e) ->
  let e' := fst (setConfig c e g) in
  length (particles e') = length (particles e) /\
  map kinematics (particles e') = map kinematics (particles e) /\
  map color (particles e') = color_draws (palette c) (length (particles e)) g /\
  config e' = c.
Proof.
  intros Hok Hn Hp. cbv zeta.
  rewrite setConfig_recolor.
  - rewrite refreshColors_particles, refreshColors_config.
    cbn [with_config config particles].
    destruct (recolor_all_spec (palette c) (particles e) g) as (Hl & Hk & Hc).
    auto.
  - unfold count_ok in Hok. congruence.
  - congruence.
Qed.

Lemma palette_change_witness :
  let c := mkConfig 1 0 2 0.7 35 true false 10000 ocean in
  let e' := fst (setConfig c two_body zero_draws) in
  length (particles e') = 2%nat /\
  map kinematics (particles e') = map kinematics [body1; body2] /\
  map color (particles e') = color_draws ocean 2 zero_draws /\
  config e' = c.
Proof.
  apply (palette_change_recolors_only
           (mkConfig 1 0 2 0.7 35 true false 10000 ocean) two_body zero_draws).
  - reflexivity.
  - reflexivity.
  - discriminate.
Defined.

(** C8. [setConfig] samples new particles only when the count asked for
    differs from the length of the array, recolours only when the count
    agrees and the palette differs, and otherwise only stores the
    configuration.  In particular a change of [G] alone leaves the
    array, with every id, position, velocity, mass and colour, and the
    random stream as they were. *)
Theorem setConfig_cases (c : SimulationConfig) (e : PhysicsEngine) (g : Rng) :
  (length (particles e) <> particleCount c ->
     setConfig c e g = init (with_config e c) g) /\
  (length (particles e) = particleCount c -> palette (config e) <> palette c ->
     setConfig c e g = refreshColors (with_config e c) g) /\
  (length (particles e) = particleCount c -> palette (config e) = palette c ->
     setConfig c e g = (with_config e c, g)) /\
  (forall G', count_ok e ->
     c = mkConfig G' (friction (config e)) (particleCount (config e))
                  (collisionElasticity (config e)) (trailLength (config e))
                  (showTrails (config e)) (paused (config e))
                  (mouseStrength (config e)) (palette (config e)) ->
     particles (fst (setConfig c e g)) = particles e /\
     config (fst (setConfig c e g)) = c /\
     snd (setConfig c e g) = g).
Proof.
  split; [apply setConfig_reinit|].
  split; [apply setConfig_recolor|].
  split; [apply setConfig_keep|].
  intros G' Hok Hc.
  rewrite setConfig_keep.
  - auto.
  - rewrite Hc. exact Hok.
  - rewrite Hc. reflexivity.
Qed.

Lemma setConfig_cases_witness :
  let c := mkConfig 5 0 2 0.7 35 true false 10000 fireworks in
  particles (fst (setConfig c two_body zero_draws)) = [body1; body2] /\
  config (fst (setConfig c two_body zero_draws)) = c /\
  snd (setConfig c two_body zero_draws) = zero_draws.
Proof.
  destruct (setConfig_cases (mkConfig 5 0 2 0.7 35 true false 10000 fireworks)
              two_body zero_draws) as (_ & _ & _ & H).
  apply (H 5); reflexivity.
Defined.

Lemma Forall_imap_intro {A B} (P : A -> Prop) (Q : B -> Prop) (f : nat -> A -> B) l :
  (forall i a, P a -> Q (f i a)) -> Forall P l -> Forall Q (imap f l).
Proof.
  intros Hf Hl. apply Forall_lookup_2. intros i b Hb.
  apply list_lookup_imap_Some in Hb. destruct Hb as (a & Ha & ->).
  apply Hf. exact (Forall_lookup_1 P l i a Hl Ha).
Qed.

Lemma updateDimensions_step_particles w h e :
  paused (config e) = false ->
  particles (step (updateDimensions w h e)) =
  imap (fun i p => move (1 - friction (config e)) (collisionElasticity (config e))
                        w h (accel (G (config e)) (particles e) i p))
       (particles e).
Proof. intros Hp. rewrite step_running by exact Hp. reflexivity. Qed.

(** C3. For two slots [i <> j] of the array of any engine, the term the
    loop of [i] adds for [j] and the term the loop of [j] adds for [i]
    have opposite components and the same length, and the two scalars
    [force] agree. *)
Theorem newton_third_law (e : PhysicsEngine) (i j : nat) (pi pj : Particle) :
  i <> j ->
  particles e !! i = Some pi ->
  particles e !! j = Some pj ->
  let Fij := pair_force (G (config e)) pi pj in
  let Fji := pair_force (G (config e)) pj pi in
  fst Fij = - fst Fji /\ snd Fij = - snd Fji /\
  norm Fij = norm Fji /\
  force_scalar (G (config e)) pi pj = force_scalar (G (config e)) pj pi.
Proof.
  intros _ _ _ Fij Fji.
  destruct (pair_force_opposite (G (config e)) pi pj) as [Hx Hy].
  fold Fij Fji in Hx, Hy.
  repeat split; try assumption.
  - unfold norm, dot. rewrite Hx, Hy. f_equal. ring.
  - apply force_scalar_sym.
Qed.

Lemma newton_third_law_witness :
  fst (pair_force 1 body1 body2) = - fst (pair_force 1 body2 body1) /\
  snd (pair_force 1 body1 body2) = - snd (pair_force 1 body2 body1) /\
  norm (pair_force 1 body1 body2) = norm (pair_force 1 body2 body1) /\
  force_scalar 1 body1 body2 = force_scalar 1 body2 body1.
Proof.
  apply (newton_third_law two_body 0 1 body1 body2).
  - lia.
  - reflexivity.
  - reflexivity.
Defined.

(** C10. On a running engine [applyAttractor] adds to the velocity of a
    particle of non-zero mass the vector strength * d / (distSq * dist),
    where d is the displacement to the attractor point and
    distSq = |d|^2 + 100: the mass does not occur in it. *)
Theorem attractor_kick_ignores_mass (e : PhysicsEngine) (ax ay s : R)
    (i : nat) (p : Particle) :
  paused (config e) = false ->
  particles e !! i = Some p ->
  mass p <> 0 ->
  let dx := ax - x p in
  let dy := ay - y p in
  let distSq := dx * dx + dy * dy + 100 in
  let dist := sqrt distSq in
  exists q, particles (applyAttractor ax ay s e) !! i = Some q /\
    vx q - vx p = s * dx / (distSq * dist) /\
    vy q - vy p = s * dy / (distSq * dist) /\
    geom q = geom p.
Proof.
  intros Hp Hi Hm dx dy distSq dist.
  exists (attract ax ay s p).
  unfold applyAttractor. rewrite Hp. cbn [particles with_particles].
  split.
  - change (map ?f ?l) with (f <$> l). rewrite list_lookup_fmap, Hi. reflexivity.
  - destruct (attract_kick ax ay s p Hm) as [Hx Hy].
    repeat split; assumption.
Qed.

Lemma attractor_kick_witness :
  exists q, particles (applyAttractor 100 0 10000 two_body) !! 0%nat = Some q /\
    vx q - vx body1 =
      10000 * (100 - x body1) /
      (((100 - x body1) * (100 - x body1) + (0 - y body1) * (0 - y body1) + 100) *
       sqrt ((100 - x body1) * (100 - x body1) + (0 - y body1) * (0 - y body1) + 100)) /\
    vy q - vy body1 =
      10000 * (0 - y body1) /
      (((100 - x body1) * (100 - x body1) + (0 - y body1) * (0 - y body1) + 100) *
       sqrt ((100 - x body1) * (100 - x body1) + (0 - y body1) * (0 - y body1) + 100)) /\
    geom q = geom body1.
Proof.
  apply (attractor_kick_ignores_mass two_body 100 0 10000 0%nat body1).
  - reflexivity.
  - reflexivity.
  - simpl. lra.
Defined.

Lemma step_lookup_inside w h e i q :
  paused (config e) = false ->
  particles (step (updateDimensions w h e)) !! i = Some q ->
  fits w h q -> inside w h q.
Proof.
  intros Hp Hq Hfit.
  rewrite updateDimensions_step_particles in Hq by exact Hp.
  apply list_lookup_imap_Some in Hq. destruct Hq as (p & _ & ->).
  apply move_inside.
  unfold fits in *. rewrite radius_move in Hfit. exact Hfit.
Qed.

Lemma updateDimensions_same e : updateDimensions (width e) (height e) e = e.
Proof. destruct e; reflexivity. Qed.

(** C4 (amended). After a tick of a running engine, every particle whose
    diameter is at most the width and at most the height of the domain
    lies in [radius, width - radius] and [radius, height - radius]; so
    it does after the first tick that follows a resize, for the new
    width and height. *)
Theorem running_step_keeps_inside (e : PhysicsEngine) :
  paused (config e) = false ->
  (forall i q, particles (step e) !! i = Some q ->
     fits (width e) (height e) q -> inside (width e) (height e) q) /\
  (forall w h i q, particles (step (updateDimensions w h e)) !! i = Some q ->
     fits w h q -> inside w h q).
Proof.
  intros Hp. split.
  - intros i q Hq. apply (step_lookup_inside (width e) (height e) e i q Hp).
    rewrite updateDimensions_same. exact Hq.
  - intros w h i q. apply step_lookup_inside. exact Hp.
Qed.

Lemma running_step_witness :
  exists q, particles (step two_body) !! 0%nat = Some q /\ inside 1000 1000 q.
Proof.
  destruct (running_step_keeps_inside two_body) as [H _]; [reflexivity|].
  eexists. split.
  - rewrite step_running by reflexivity. reflexivity.
  - apply (H 0%nat).
    + rewrite step_running by reflexivity. reflexivity.
    + unfold fits. rewrite radius_move.
      cbn [radius accel set_velocity body1 width height two_body].
      destruct (sqrt_le_self 10) as [Ha Hb]; [lra|]. lra.
Defined.

Lemma paused_engine_particles :
  particles paused_engine =
  [mkParticle 0 (0 * 800) (0 * 600) ((0 - 0.5) * 2) ((0 - 0.5) * 2)
              (0 * 0 * 25 + 2) (sqrt (0 * 0 * 25 + 2) * 0.5)
              (hsla (floor (0 * 360)) 100 50)].
Proof. reflexivity. Qed.

Lemma paused_engine_paused : paused (config paused_engine) = true.
Proof. reflexivity. Qed.

Lemma step_single w h c p :
  paused c = false ->
  particles (step (mkEngine [p] c w h)) =
  [move (1 - friction c) (collisionElasticity c) w h
        (set_velocity p (vx p + 0 / mass p) (vy p + 0 / mass p))].
Proof. intros Hp. rewrite step_running by exact Hp. reflexivity. Qed.

(** C4, as stated, fails twice: a paused tick leaves a particle where
    [init] put it, which can be closer to the wall than its radius; and
    in a domain narrower than a particle the clamp to the left wall puts
    it beyond the right one. *)
Lemma tick_can_leave_particle_outside :
  ~ Forall (inside (width paused_engine) (height paused_engine))
           (particles (step paused_engine)) /\
  ~ Forall (inside (width narrow_engine) (height narrow_engine))
           (particles (step narrow_engine)).
Proof.
  split.
  - rewrite (paused_step paused_engine paused_engine_paused).
    rewrite paused_engine_particles. intros H.
    apply Forall_cons_1 in H. destruct H as [[[Hx _] _] _].
    cbn [radius x] in Hx.
    assert (Hs : 0 < sqrt (0 * 0 * 25 + 2)) by (apply sqrt_lt_R0; lra).
    lra.
  - unfold narrow_engine. rewrite step_single by reflexivity.
    cbn [width height]. intros H.
    apply Forall_cons_1 in H. destruct H as [[[_ Hx] _] _].
    rewrite radius_move in Hx.
    destruct (move_left_wall (1 - friction (app_config 1 0 0.5 false))
                (collisionElasticity (app_config 1 0 0.5 false)) 1 600
                (set_velocity edge_particle
                   (vx edge_particle + 0 / mass edge_particle)
                   (vy edge_particle + 0 / mass edge_particle))) as [Hq _].
    + cbn. lra.
    + rewrite Hq in Hx. cbn in Hx. lra.
Qed.

Lemma single_left_bounce w h c p :
  paused c = false ->
  x p = radius p - 1 ->
  vx p = -2 ->
  friction c < 3 / 2 ->
  exists q, particles (step (mkEngine [p] c w h)) = [q] /\
    x q = radius p /\ radius q = radius p /\
    vx q = -2 * (1 - friction c) * - collisionElasticity c.
Proof.
  intros Hp Hx Hv Hf.
  rewrite step_single by exact Hp.
  eexists. split; [reflexivity|].
  rewrite radius_move.
  destruct (move_left_wall (1 - friction c) (collisionElasticity c) w h
              (set_velocity p (vx p + 0 / mass p) (vy p + 0 / mass p))) as [Hq Hvq].
  - cbn [x vx radius set_velocity]. rewrite Hx, Hv. unfold Rdiv. rewrite Rmult_0_l. lra.
  - rewrite Hq, Hvq. cbn [x vx radius set_velocity]. rewrite Hv.
    unfold Rdiv. rewrite Rmult_0_l. repeat split. f_equal. f_equal. lra.
Qed.

(** C9, as stated, fails with the friction 0.005 the application starts
    with: the particle lands on the wall, and its velocity is 0.995. *)
Lemma bounce_with_default_friction :
  paused (config (edge_engine 0.005)) = false /\
  collisionElasticity (config (edge_engine 0.005)) = 0.5 /\
  particles (edge_engine 0.005) = [edge_particle] /\
  x edge_particle = radius edge_particle - 1 /\
  vx edge_particle = -2 /\
  exists q, particles (step (edge_engine 0.005)) = [q] /\
    x q = radius q /\ vx q = 0.995 /\ vx q <> 1.
Proof.
  repeat (split; [reflexivity|]).
  destruct (single_left_bounce 800 600 (app_config 1 0.005 0.5 false) edge_particle)
    as (q & Hq & Hx & Hr & Hv).
  - reflexivity.
  - reflexivity.
  - reflexivity.
  - cbn. lra.
  - exists q. split; [exact Hq|]. cbn in Hv.
    split; [congruence|]. split; lra.
Qed.

(** C9 (amended). A single particle of a running engine at
    x = radius - 1 with vx = -2, elasticity 0.5 and friction f < 3/2 is,
    after one tick, at x = radius with vx = 1 - f; with friction 0 that
    is +1. *)
Theorem left_wall_bounce (e : PhysicsEngine) (p : Particle) :
  particles e = [p] ->
  paused (config e) = false ->
  x p = radius p - 1 ->
  vx p = -2 ->
  collisionElasticity (config e) = 0.5 ->
  friction (config e) < 3 / 2 ->
  mass p <> 0 ->
  exists q, particles (step e) = [q] /\
    x q = radius q /\ radius q = radius p /\
    vx q = 1 - friction (config e) /\
    (friction (config e) = 0 -> vx q = 1).
Proof.
  intros Hps Hp Hx Hv Hel Hf _.
  destruct e as [ps c w h]. cbn [particles config] in *. subst ps.
  destruct (single_left_bounce w h c p Hp Hx Hv Hf) as (q & Hq & Hxq & Hr & Hvq).
  exists q. split; [exact Hq|].
  rewrite Hel in Hvq.
  repeat split.
  - congruence.
  - exact Hr.
  - lra.
  - intros H0. lra.
Qed.

Lemma left_wall_bounce_witness :
  exists q, particles (step (edge_engine 0)) = [q] /\
    x q = radius q /\ radius q = radius edge_particle /\
    vx q = 1 - friction (config (edge_engine 0)) /\
    (friction (config (edge_engine 0)) = 0 -> vx q = 1).
Proof.
  apply (left_wall_bounce (edge_engine 0) edge_particle).
  - reflexivity.
  - reflexivity.
  - reflexivity.
  - reflexivity.
  - reflexivity.
  - cbn. lra.
  - cbn. lra.
Defined.

(** ** Two bodies, masses 10 and 20, displacement (3, 4) *)

Lemma inv_sqrt45_bounds : 0 < / sqrt 45 <= 1.
Proof.
  destruct (sqrt_le_self 45) as [H1 _]; [lra|]. split.
  - apply Rinv_0_lt_compat. lra.
  - rewrite <- Rinv_1. apply Rinv_le_contravar; lra.
Qed.

Lemma sqrt45_sqr : sqrt 45 * sqrt 45 = 45.
Proof. apply sqrt_sqrt. lra. Qed.

Section TwoBodies.
Variables p1 p2 : Particle.
Hypothesis Hm1 : mass p1 = 10.
Hypothesis Hm2 : mass p2 = 20.
Hypothesis Hdx : x p2 - x p1 = 3.
Hypothesis Hdy : y p2 - y p1 = 4.

Lemma two_body_distSq :
  (x p2 - x p1) * (x p2 - x p1) + (y p2 - y p1) * (y p2 - y p1) + softening = 45 /\
  (x p1 - x p2) * (x p1 - x p2) + (y p1 - y p2) * (y p1 - y p2) + softening = 45.
Proof. unfold softening. split; nra. Qed.

Lemma two_body_scalar :
  force_scalar 1 p1 p2 = 200 / 45 /\ force_scalar 1 p2 p1 = 200 / 45.
Proof.
  destruct two_body_distSq as [H12 H21].
  unfold force_scalar. rewrite H12, H21, Hm1, Hm2. split; lra.
Qed.

Lemma two_body_pair :
  pair_force 1 p1 p2 = (200 / 45 * 3 / sqrt 45, 200 / 45 * 4 / sqrt 45) /\
  pair_force 1 p2 p1 = (200 / 45 * -3 / sqrt 45, 200 / 45 * -4 / sqrt 45).
Proof.
  destruct two_body_distSq as [H12 H21].
  unfold pair_force. rewrite H12, H21, Hm1, Hm2, Hdx, Hdy.
  replace (x p1 - x p2) with (-3) by lra.
  replace (y p1 - y p2) with (-4) by lra.
  split; f_equal; unfold Rdiv; ring.
Qed.

Lemma two_body_net :
  net_force 1 [p1; p2] 0 p1 = (200 / 45 * 3 / sqrt 45, 200 / 45 * 4 / sqrt 45) /\
  net_force 1 [p1; p2] 1 p2 = (200 / 45 * -3 / sqrt 45, 200 / 45 * -4 / sqrt 45).
Proof.
  destruct two_body_pair as [H12 H21].
  unfold net_force. cbn [accumulate Nat.eqb]. rewrite H12, H21. cbn [fst snd].
  split; f_equal; ring.
Qed.

Lemma two_body_norm :
  norm (net_force 1 [p1; p2] 0 p1) = 200 / 45 * (5 / sqrt 45) /\
  norm (net_force 1 [p1; p2] 1 p2) = 200 / 45 * (5 / sqrt 45).
Proof.
  destruct two_body_net as [H1 H2]. rewrite H1, H2.
  destruct inv_sqrt45_bounds as [Hk _].
  assert (Hs : sqrt 45 <> 0).
  { destruct (sqrt_le_self 45); lra. }
  unfold norm, dot. cbn [fst snd].
  split.
  - replace (200 / 45 * 3 / sqrt 45 * (200 / 45 * 3 / sqrt 45) +
             200 / 45 * 4 / sqrt 45 * (200 / 45 * 4 / sqrt 45))
      with ((200 / 45 * (5 / sqrt 45)) * (200 / 45 * (5 / sqrt 45)))
      by (field; exact Hs).
    apply sqrt_square. unfold Rdiv. nra.
  - replace (200 / 45 * -3 / sqrt 45 * (200 / 45 * -3 / sqrt 45) +
             200 / 45 * -4 / sqrt 45 * (200 / 45 * -4 / sqrt 45))
      with ((200 / 45 * (5 / sqrt 45)) * (200 / 45 * (5 / sqrt 45)))
      by (field; exact Hs).
    apply sqrt_square. unfold Rdiv. nra.
Qed.

(** One tick of the pair without friction and without wall contact. *)
Lemma two_body_step w h c :
  paused c = false -> G c = 1 -> friction c = 0 ->
  free_flight 1 w h (accel 1 [p1; p2] 0 p1) ->
  free_flight 1 w h (accel 1 [p1; p2] 1 p2) ->
  exists q1 q2, particles (step (mkEngine [p1; p2] c w h)) = [q1; q2] /\
    vx q1 = vx p1 + fst (net_force 1 [p1; p2] 0 p1) / mass p1 /\
    vy q1 = vy p1 + snd (net_force 1 [p1; p2] 0 p1) / mass p1 /\
    vx q2 = vx p2 + fst (net_force 1 [p1; p2] 1 p2) / mass p2 /\
    vy q2 = vy p2 + snd (net_force 1 [p1; p2] 1 p2) / mass p2.
Proof.
  intros Hp HG Hf Hfree1 Hfree2.
  rewrite step_running by exact Hp.
  cbn [particles config width height imap]. rewrite HG, Hf.
  replace (1 - 0) with 1 by lra.
  rewrite (move_free 1 _ w h _ Hfree1).
  unfold compose. rewrite (move_free 1 _ w h _ Hfree2).
  eexists. eexists. split; [reflexivity|].
  cbn [vx vy accel set_velocity]. repeat split; apply Rmult_1_r.
Qed.
End TwoBodies.

Lemma two_body_free_flight :
  free_flight 1 1000 1000 (accel 1 [body1; body2] 0 body1) /\
  free_flight 1 1000 1000 (accel 1 [body1; body2] 1 body2).
Proof.
  destruct (two_body_net body1 body2) as [H1 H2];
    [reflexivity|reflexivity|cbn; lra|cbn; lra|].
  destruct inv_sqrt45_bounds as [Hk0 Hk1].
  destruct (sqrt_le_self 10) as [Ha Hb]; [lra|].
  destruct (sqrt_le_self 20) as [Hc Hd]; [lra|].
  unfold free_flight, accel. rewrite H1, H2.
  cbn [x y vx vy radius mass set_velocity body1 body2 fst snd].
  unfold Rdiv. repeat split; lra.
Qed.

(** C1, as stated, fails on the two bodies at (100, 100) and (103, 104):
    the first velocity gains 200/45 * 3 / sqrt 45 / 10 in x, not
    200/45 / 10 * 3/5, and the force vector is shorter than 200/45. *)
Lemma two_body_kick_is_not_radial :
  mass body1 = 10 /\ mass body2 = 20 /\
  x body2 - x body1 = 3 /\ y body2 - y body1 = 4 /\
  G (config two_body) = 1 /\ friction (config two_body) = 0 /\
  exists q1 q2, particles (step two_body) = [q1; q2] /\
    vx q1 - vx body1 <> 200 / 45 / mass body1 * (3 / 5) /\
    norm (net_force 1 [body1; body2] 0 body1) <> 200 / 45.
Proof.
  assert (Hx : x body2 - x body1 = 3) by (cbn; lra).
  assert (Hy : y body2 - y body1 = 4) by (cbn; lra).
  repeat (split; [first [reflexivity | assumption]|]).
  destruct two_body_free_flight as [Hf1 Hf2].
  destruct (two_body_step body1 body2 1000 1000 two_body_config)
    as (q1 & q2 & Hq & Hvx & _); try reflexivity; try assumption.
  destruct (two_body_net body1 body2) as [H1 _]; try reflexivity; try assumption.
  destruct (two_body_norm body1 body2) as [Hn _]; try reflexivity; try assumption.
  destruct inv_sqrt45_bounds as [Hk0 Hk1].
  pose proof sqrt45_sqr as Hsq.
  assert (Hs : sqrt 45 <> 0) by (intros E; rewrite E in Hsq; lra).
  assert (Hk : sqrt 45 * / sqrt 45 = 1) by (apply Rinv_r; exact Hs).
  exists q1, q2. split; [exact Hq|].
  rewrite Hvx, Hn, H1. cbn [fst mass vx body1]. unfold Rdiv.
  split; intros E; nra.
Qed.

(** C1 (amended). Two particles of masses 10 and 20 whose displacement is
    (3, 4), with G = 1: the scalar [force] is 200/45 for both; the force
    accumulated for the first is the vector (200/45) * (3, 4) / sqrt 45,
    of length (200/45) * 5 / sqrt 45, and for the second its opposite;
    a tick with friction 0 in which neither reaches a wall adds to each
    velocity that vector divided by the particle's mass. *)
Theorem two_body_tick (e : PhysicsEngine) (p1 p2 : Particle) :
  particles e = [p1; p2] ->
  paused (config e) = false ->
  G (config e) = 1 ->
  friction (config e) = 0 ->
  mass p1 = 10 -> mass p2 = 20 ->
  x p2 - x p1 = 3 -> y p2 - y p1 = 4 ->
  free_flight 1 (width e) (height e) (accel 1 [p1; p2] 0 p1) ->
  free_flight 1 (width e) (height e) (accel 1 [p1; p2] 1 p2) ->
  let F1 := net_force 1 [p1; p2] 0 p1 in
  let F2 := net_force 1 [p1; p2] 1 p2 in
  force_scalar 1 p1 p2 = 200 / 45 /\ force_scalar 1 p2 p1 = 200 / 45 /\
  F1 = (200 / 45 * 3 / sqrt 45, 200 / 45 * 4 / sqrt 45) /\
  F2 = (200 / 45 * -3 / sqrt 45, 200 / 45 * -4 / sqrt 45) /\
  norm F1 = 200 / 45 * (5 / sqrt 45) /\ norm F2 = 200 / 45 * (5 / sqrt 45) /\
  exists q1 q2, particles (step e) = [q1; q2] /\
    vx q1 = vx p1 + fst F1 / mass p1 /\ vy q1 = vy p1 + snd F1 / mass p1 /\
    vx q2 = vx p2 + fst F2 / mass p2 /\ vy q2 = vy p2 + snd F2 / mass p2.
Proof.
  intros Hps Hp HG Hf Hm1 Hm2 Hdx Hdy Hf1 Hf2 F1 F2.
  destruct e as [ps c w h]. cbn [particles config width height] in *. subst ps.
  destruct (two_body_scalar p1 p2 Hm1 Hm2 Hdx Hdy) as [Hs1 Hs2].
  destruct (two_body_net p1 p2 Hm1 Hm2 Hdx Hdy) as [Hn1 Hn2].
  destruct (two_body_norm p1 p2 Hm1 Hm2 Hdx Hdy) as [Hl1 Hl2].
  repeat (split; [assumption|]).
  exact (two_body_step p1 p2 w h c Hp HG Hf Hf1 Hf2).
Qed.

Lemma two_body_tick_witness :
  exists q1 q2, particles (step two_body) = [q1; q2] /\
    vx q1 = vx body1 + fst (net_force 1 [body1; body2] 0 body1) / mass body1 /\
    vy q1 = vy body1 + snd (net_force 1 [body1; body2] 0 body1) / mass body1 /\
    vx q2 = vx body2 + fst (net_force 1 [body1; body2] 1 body2) / mass body2 /\
    vy q2 = vy body2 + snd (net_force 1 [body1; body2] 1 body2) / mass body2.
Proof.
  destruct two_body_free_flight as [Hf1 Hf2].
  apply (two_body_tick two_body body1 body2); try reflexivity; try assumption.
  - cbn; lra.
  - cbn; lra.
Defined.

(** ** The kernel on the two bodies *)

Lemma sqrt25 : sqrt 25 = 5.
Proof. replace 25 with (5 * 5) by lra. apply sqrt_square. lra. Qed.

Lemma gpu_two_body_total :
  WebGpu.gravity two_body_params 0 (to_gpu body1) 0 two_body_buffer (0, 0) =
  (200 / 45 * (3 / 5), 200 / 45 * (4 / 5)).
Proof.
  unfold two_body_buffer, two_body_params, render_params.
  cbn [WebGpu.gravity map Nat.eqb to_gpu WebGpu.pos WebGpu.mass WebGpu.G
       body1 body2 x y mass G two_body_config].
  unfold vadd, vscale, normalize, vsub, dot. cbn [fst snd].
  replace ((103 - 100) * (103 - 100) + (104 - 100) * (104 - 100)) with 25 by lra.
  rewrite sqrt25. f_equal; lra.
Qed.

Lemma gpu_two_body_worker :
  exists g, WebGpu.main two_body_params two_body_buffer 0 = Some g /\
    WebGpu.vel g = (2 / 15, 8 / 45) /\ WebGpu.pos g = (100 + 2 / 15, 100 + 8 / 45).
Proof.
  unfold WebGpu.main.
  change (WebGpu.particleCount two_body_params) with 2%nat.
  change (take 2 two_body_buffer) with two_body_buffer.
  change (two_body_buffer !! 0%nat) with (Some (to_gpu body1)).
  cbn [Nat.ltb Nat.leb negb].
  rewrite gpu_two_body_total.
  unfold two_body_params, render_params.
  cbn [WebGpu.mousePos WebGpu.mouseStrength WebGpu.friction WebGpu.width
       WebGpu.height WebGpu.dt WebGpu.elasticity to_gpu WebGpu.pos WebGpu.vel
       WebGpu.mass body1 x y vx vy mass two_body_config friction collisionElasticity].
  unfold vadd, vscale, vdiv, normalize, vsub, dot. cbn [fst snd].
  destruct (sqrt_le_self 10) as [Ha Hb]; [lra|].
  set (m := / sqrt ((0 - 100) * (0 - 100) + (0 - 100) * (0 - 100))).
  set (d := / ((0 - 100) * (0 - 100) + (0 - 100) * (0 - 100) + 100)).
  unfold Rdiv. fold m d.
  destruct (Rlt_dec _ _) as [H|_]; [exfalso; lra|].
  destruct (Rgt_dec _ _) as [H|_]; [exfalso; lra|].
  destruct (Rlt_dec _ _) as [H|_]; [exfalso; lra|].
  destruct (Rgt_dec _ _) as [H|_]; [exfalso; lra|].
  eexists. split; [reflexivity|]. cbn [WebGpu.vel WebGpu.pos].
  split; f_equal; lra.
Qed.

Lemma two_body_first_after :
  exists q, particles (step two_body) !! 0%nat = Some q /\
    vx q = 200 / 45 * 3 / sqrt 45 / 10 /\ x q = 100 + 200 / 45 * 3 / sqrt 45 / 10.
Proof.
  destruct two_body_free_flight as [Hf1 _].
  destruct (two_body_net body1 body2) as [H1 _];
    [reflexivity|reflexivity|cbn; lra|cbn; lra|].
  rewrite step_running by reflexivity.
  unfold two_body. cbn [particles config width height imap lookup list_lookup
                        friction collisionElasticity G two_body_config].
  replace (1 - 0) with 1 by lra.
  rewrite (move_free 1 _ 1000 1000 _ Hf1).
  eexists. split; [reflexivity|].
  cbn [vx x accel set_velocity]. rewrite H1. cbn [fst mass vx x body1].
  split; lra.
Qed.

(** C2. On the two bodies, with the same configuration and the pointer
    inactive, the first particle after [step] and the record worker 0 of
    the kernel stores differ in velocity and in position: the kernel
    adds (2/15, 8/45) to the velocity, [step] adds
    (200/45) * (3, 4) / sqrt 45 / 10. *)
Theorem strategies_differ_on_two_bodies :
  exists q g,
    particles (step two_body) !! 0%nat = Some q /\
    WebGpu.main (render_params (config two_body) (width two_body) (height two_body)
                              0 0 false)
               (map to_gpu (particles two_body)) 0 = Some g /\
    WebGpu.vel g = (2 / 15, 8 / 45) /\
    vx q = 200 / 45 * 3 / sqrt 45 / 10 /\
    fst (WebGpu.vel g) <> vx q /\ fst (WebGpu.pos g) <> x q.
Proof.
  destruct two_body_first_after as (q & Hq & Hv & Hx).
  destruct gpu_two_body_worker as (g & Hg & Hgv & Hgp).
  exists q, g. split; [exact Hq|]. split; [exact Hg|].
  split; [exact Hgv|]. split; [exact Hv|].
  rewrite Hgv, Hgp, Hv, Hx. cbn [fst].
  destruct inv_sqrt45_bounds as [Hk0 Hk1].
  pose proof sqrt45_sqr as Hsq.
  assert (Hs : sqrt 45 <> 0) by (intros E; rewrite E in Hsq; lra).
  assert (Hk : sqrt 45 * / sqrt 45 = 1) by (apply Rinv_r; exact Hs).
  unfold Rdiv. split; intros E; nra.
Qed.

(** * Further properties *)

(** ** Sampling *)

Lemma floor_scaled (r : R) (k : Z) :
  0 <= r < 1 -> (0 < k)%Z -> (0 <= floor (r * IZR k) < k)%Z.
Proof.
  intros [H0 H1] Hk. unfold floor.
  assert (Hk' : 0 < IZR k) by (apply IZR_lt; exact Hk).
  destruct (Zfloor_bound (r * IZR k)) as [Hlo Hhi].
  split.
  - apply Zfloor_lub. simpl. nra.
  - apply lt_IZR. nra.
Qed.

Lemma random_draws g : draws (snd (random g)) = draws g.
Proof. reflexivity. Qed.

Lemma unit_draws_random g : unit_draws g -> unit_draws (snd (random g)).
Proof. intros H. exact H. Qed.

Lemma generateColor_rng pal g : snd (generateColor pal g) = skip (color_cost pal) g.
Proof.
  unfold skip.
  destruct pal; cbn [generateColor random color_cost];
    try destruct (Rgt_dec _ _); cbn [snd draws cursor]; f_equal; lia.
Qed.

Lemma generateColor_palette_ok (pal : ColorPalette) (g : Rng) :
  unit_draws g -> in_palette pal (fst (generateColor pal g)).
Proof.
  intros Hg.
  pose proof (Hg (cursor g)) as H0.
  pose proof (Hg (S (cursor g))) as H1.
  destruct pal; cbn [generateColor random in_palette].
  - pose proof (floor_scaled _ 360 H0 eq_refl). cbn [fst hue saturation lightness]. auto.
  - destruct (Rgt_dec _ _); cbn [fst hue saturation lightness draws cursor];
      pose proof (floor_scaled _ 40 H1 eq_refl); (split; [|auto]); [left|right]; lia.
  - pose proof (floor_scaled _ 60 H0 eq_refl). cbn [fst hue saturation lightness].
    split; [lia|auto].
  - pose proof (floor_scaled _ 50 H0 eq_refl). cbn [fst hue saturation lightness]. auto.
  - pose proof (floor_scaled _ 50 H0 eq_refl). cbn [fst hue saturation lightness].
    split; [reflexivity|]. split; [reflexivity|lia].
  - pose proof (floor_scaled _ 60 H0 eq_refl). cbn [fst hue saturation lightness].
    split; [lia|auto].
Qed.

Lemma skip_skip a b g : skip b (skip a g) = skip (a + b) g.
Proof. unfold skip. cbn [draws cursor]. f_equal. lia. Qed.

Lemma unit_draws_skip n g : unit_draws g -> unit_draws (skip n g).
Proof. intros H. exact H. Qed.

Lemma spawn_rng i pal w h g :
  snd (spawn i pal w h g) = skip (6 + color_cost pal) g.
Proof.
  unfold spawn. cbn [random].
  pose proof (generateColor_rng pal
    (mkRng (draws g) (S (S (S (S (S (S (cursor g))))))))) as H.
  cbn [draws cursor] in *.
  destruct (generateColor pal _) as [c g']. cbn [snd] in *. rewrite H.
  unfold skip. cbn [draws cursor]. f_equal. lia.
Qed.

Lemma spawn_sampled i pal w h g :
  unit_draws g -> 0 < w -> 0 < h -> freshly_sampled w h (fst (spawn i pal w h g)).
Proof.
  intros Hg Hw Hh. unfold spawn. cbn [random draws cursor].
  destruct (generateColor pal _) as [c g'].
  unfold freshly_sampled. cbn [fst mass x y vx vy].
  pose proof (Hg (cursor g)). pose proof (Hg (S (cursor g))).
  pose proof (Hg (S (S (cursor g)))). pose proof (Hg (S (S (S (cursor g))))).
  pose proof (Hg (S (S (S (S (cursor g)))))).
  pose proof (Hg (S (S (S (S (S (cursor g))))))).
  repeat split; nra.
Qed.

Lemma init_loop_rng pal w h : forall k i acc g,
  snd (init_loop k i pal w h acc g) = skip (k * (6 + color_cost pal)) g.
Proof.
  induction k as [|k IH]; intros i acc g; cbn [init_loop].
  - unfold skip. destruct g. cbn. f_equal. lia.
  - pose proof (spawn_rng i pal w h g) as Hs.
    destruct (spawn i pal w h g) as [p g']. cbn [snd] in Hs. subst g'.
    rewrite IH, skip_skip. f_equal.
Qed.

Lemma spawn_color i pal w h g :
  unit_draws g -> in_palette pal (color (fst (spawn i pal w h g))).
Proof.
  intros Hg. unfold spawn. cbn [random draws cursor].
  pose proof (generateColor_palette_ok pal
    (mkRng (draws g) (S (S (S (S (S (S (cursor g)))))))) Hg) as H.
  destruct (generateColor pal _) as [c g']. exact H.
Qed.

Lemma init_loop_Forall_draws pal w h (P : Particle -> Prop) :
  (forall i g, unit_draws g -> P (fst (spawn i pal w h g))) ->
  forall k i acc g, unit_draws g -> Forall P acc ->
  Forall P (fst (init_loop k i pal w h acc g)).
Proof.
  intros HP. induction k as [|k IH]; intros i acc g Hg Hacc; cbn [init_loop].
  - exact Hacc.
  - pose proof (HP i g Hg) as Hp.
    pose proof (spawn_rng i pal w h g) as Hs.
    destruct (spawn i pal w h g) as [p g']. cbn [fst snd] in *. subst g'.
    apply IH.
    + apply unit_draws_skip. exact Hg.
    + apply Forall_app. split; [exact Hacc|]. constructor; [exact Hp|constructor].
Qed.

Lemma init_loop_ids pal w h : forall k i acc g,
  i = length acc -> ids_ok acc -> ids_ok (fst (init_loop k i pal w h acc g)).
Proof.
  induction k as [|k IH]; intros i acc g Hi Hacc; cbn [init_loop].
  - exact Hacc.
  - pose proof (spawn_id pal w h i g) as Hp.
    destruct (spawn i pal w h g) as [p g']. cbn [fst] in Hp.
    apply IH.
    + rewrite length_app. cbn. lia.
    + intros j q Hq. apply lookup_app_Some in Hq.
      destruct Hq as [Hq|[Hge Hq]].
      * exact (Hacc j q Hq).
      * apply list_lookup_singleton_Some in Hq. destruct Hq as [Hj ->]. lia.
Qed.

Lemma init_rng e g :
  snd (init e g) =
  skip (particleCount (config e) * (6 + color_cost (palette (config e)))) g.
Proof.
  unfold init.
  pose proof (init_loop_rng (palette (config e)) (width e) (height e)
                (particleCount (config e)) 0 [] g) as H.
  destruct (init_loop _ _ _ _ _ _ _). exact H.
Qed.

(** X2. With draws from [0, 1) and a domain of positive width and height,
    every particle [init] makes has a mass in [2, 27), a position in
    [0, width) x [0, height), velocity components in [-1, 1) and a colour
    of the configured palette. *)
Theorem init_samples_in_range (e : PhysicsEngine) (g : Rng) :
  unit_draws g -> 0 < width e -> 0 < height e ->
  Forall (fun p => freshly_sampled (width e) (height e) p /\
                   in_palette (palette (config e)) (color p))
         (particles (fst (init e g))).
Proof.
  intros Hg Hw Hh. rewrite init_particles.
  apply init_loop_Forall_draws; [|exact Hg|constructor].
  intros i g0 Hg0. split.
  - apply spawn_sampled; assumption.
  - apply spawn_color. exact Hg0.
Qed.

Lemma init_samples_witness :
  Forall (fun p => freshly_sampled 800 600 p /\ in_palette fireworks (color p))
         (particles (fst (init (mkEngine [] (app_config 3 0.005 0.7 false) 800 600)
                               zero_draws))).
Proof.
  apply (init_samples_in_range (mkEngine [] (app_config 3 0.005 0.7 false) 800 600)
           zero_draws).
  - intros n. cbn. lra.
  - cbn. lra.
  - cbn. lra.
Defined.

(** X3. After [init] the particle at index [i] has the id [i], and the
    random stream has advanced by 7 draws per particle, 8 with the
    cyberpunk palette. *)
Theorem init_ids_and_draws (e : PhysicsEngine) (g : Rng) :
  ids_ok (particles (fst (init e g))) /\
  snd (init e g) =
    skip (particleCount (config e) * (6 + color_cost (palette (config e)))) g.
Proof.
  split.
  - rewrite init_particles. apply init_loop_ids; [reflexivity|].
    intros i p Hp. rewrite lookup_nil in Hp. discriminate.
  - apply init_rng.
Qed.

(** ** What the methods leave alone *)

Lemma fmap_imap_same {A B} (h : A -> B) (f : nat -> A -> A) (l : list A) :
  (forall i a, h (f i a) = h a) -> h <$> imap f l = h <$> l.
Proof.
  intros H. apply list_eq. intros i.
  rewrite !list_lookup_fmap, list_lookup_imap.
  destruct (l !! i) as [a|]; cbn; [|reflexivity]. rewrite H. reflexivity.
Qed.

Lemma body_move fr el w h p : body (move fr el w h p) = body p.
Proof.
  unfold move.
  destruct (Rlt_dec _ _); [|destruct (Rgt_dec _ _)];
    (destruct (Rlt_dec _ _); [|destruct (Rgt_dec _ _)]); reflexivity.
Qed.

Lemma step_body (e : PhysicsEngine) :
  map body (particles (step e)) = map body (particles e) /\
  config (step e) = config e /\
  width (step e) = width e /\ height (step e) = height e.
Proof.
  destruct (paused (config e)) eqn:Hp.
  - rewrite paused_step by exact Hp. auto.
  - split.
    + rewrite step_running by exact Hp.
      apply (fmap_imap_same body). intros i p. rewrite body_move. reflexivity.
    + unfold step. rewrite Hp. auto.
Qed.

Lemma applyAttractor_placed (ax ay s : R) (e : PhysicsEngine) :
  map placed (particles (applyAttractor ax ay s e)) = map placed (particles e) /\
  config (applyAttractor ax ay s e) = config e /\
  width (applyAttractor ax ay s e) = width e /\
  height (applyAttractor ax ay s e) = height e.
Proof.
  unfold applyAttractor. destruct (paused (config e)); [auto|].
  cbn [particles config width height with_particles]. split; [|auto].
  rewrite map_map. apply map_ext. reflexivity.
Qed.

Lemma tag_of_body ps ps' : map body ps' = map body ps -> map tag ps' = map tag ps.
Proof.
  intros H.
  change (map tag ps') with (map (fun p => (fun b : nat * R * R * Color => b.1) (body p)) ps').
  change (map tag ps) with (map (fun p => (fun b : nat * R * R * Color => b.1) (body p)) ps).
  rewrite <- !(map_map body). rewrite H. reflexivity.
Qed.

Lemma tag_of_placed ps ps' : map placed ps' = map placed ps -> map tag ps' = map tag ps.
Proof.
  intros H.
  set (pr := fun b : nat * R * R * R * R * Color =>
               let '(i, _, _, m, r, _) := b in (i, m, r)).
  change (map tag ps') with (map (fun p => pr (placed p)) ps').
  change (map tag ps) with (map (fun p => pr (placed p)) ps).
  rewrite <- !(map_map placed). rewrite H. reflexivity.
Qed.

Lemma tag_of_kinematics ps ps' :
  map kinematics ps' = map kinematics ps -> map tag ps' = map tag ps.
Proof.
  intros H.
  set (pr := fun b : nat * R * R * R * R * R * R =>
               let '(i, _, _, _, _, m, r) := b in (i, m, r)).
  change (map tag ps') with (map (fun p => pr (kinematics p)) ps').
  change (map tag ps) with (map (fun p => pr (kinematics p)) ps).
  rewrite <- !(map_map kinematics). rewrite H. reflexivity.
Qed.

Lemma tag_keeps ps ps' :
  map tag ps' = map tag ps ->
  (Forall radius_ok ps -> Forall radius_ok ps') /\ (ids_ok ps -> ids_ok ps').
Proof.
  intros H. split.
  - intros Hr. apply Forall_lookup_2. intros i p' Hp'.
    assert (Ht : (tag <$> ps') !! i = Some (tag p'))
      by (rewrite list_lookup_fmap, Hp'; reflexivity).
    change (tag <$> ps') with (map tag ps') in Ht. rewrite H in Ht.
    change (map tag ps) with (tag <$> ps) in Ht.
    rewrite list_lookup_fmap in Ht.
    destruct (ps !! i) as [p|] eqn:Hp; [|discriminate].
    cbn in Ht. injection Ht as Hi Hm Hrd.
    pose proof (Forall_lookup_1 _ _ _ _ Hr Hp) as Hok.
    unfold radius_ok in *. congruence.
  - intros Hid i p' Hp'.
    assert (Ht : (tag <$> ps') !! i = Some (tag p'))
      by (rewrite list_lookup_fmap, Hp'; reflexivity).
    change (tag <$> ps') with (map tag ps') in Ht. rewrite H in Ht.
    change (map tag ps) with (tag <$> ps) in Ht.
    rewrite list_lookup_fmap in Ht.
    destruct (ps !! i) as [p|] eqn:Hp; [|discriminate].
    cbn in Ht. injection Ht as Hi Hm Hrd.
    rewrite <- Hi. exact (Hid i p Hp).
Qed.

Lemma init_engine_ok e g : engine_ok (fst (init e g)).
Proof.
  split; [apply init_count_ok|]. rewrite init_particles. split.
  - apply init_loop_Forall; [|constructor]. intros i g0. apply spawn_radius.
  - apply init_loop_ids; [reflexivity|].
    intros i p Hp. rewrite lookup_nil in Hp. discriminate.
Qed.

Lemma refreshColors_engine_ok e g : engine_ok e -> engine_ok (fst (refreshColors e g)).
Proof.
  intros (Hc & Hr & Hi). unfold engine_ok, count_ok.
  rewrite refreshColors_particles, refreshColors_config.
  destruct (recolor_all_spec (palette (config e)) (particles e) g) as (Hl & Hk & _).
  destruct (tag_keeps _ _ (tag_of_kinematics _ _ Hk)) as [Hr' Hi'].
  split; [rewrite Hl; exact Hc|]. split; auto.
Qed.

Lemma setConfig_engine_ok c e g : engine_ok e -> engine_ok (fst (setConfig c e g)).
Proof.
  intros He.
  destruct (decide (length (particles e) = particleCount c)) as [Hn|Hn].
  - destruct (decide (palette (config e) = palette c)) as [Hp|Hp].
    + rewrite setConfig_keep by assumption.
      destruct He as (_ & Hr & Hi). split; [exact Hn|]. split; assumption.
    + rewrite setConfig_recolor by assumption.
      apply refreshColors_engine_ok.
      destruct He as (_ & Hr & Hi). split; [exact Hn|]. split; assumption.
  - rewrite setConfig_reinit by assumption. apply init_engine_ok.
Qed.

(** X4. Every engine a caller can get from the constructor and the public
    methods holds as many particles as its configuration asks for, each
    with radius = sqrt(mass) * 0.5 and with its index as id. *)
Theorem reachable_engine_ok (e : PhysicsEngine) : Reachable e -> engine_ok e.
Proof.
  induction 1 as [c w h g|c e g _ IH|e g _ IH|e g _ _|w h e _ IH|e _ IH|ax ay s e _ IH].
  - apply init_engine_ok.
  - apply setConfig_engine_ok. exact IH.
  - apply refreshColors_engine_ok. exact IH.
  - apply init_engine_ok.
  - exact IH.
  - destruct IH as (Hc & Hr & Hi).
    destruct (step_body e) as (Hb & Hcfg & _).
    destruct (tag_keeps _ _ (tag_of_body _ _ Hb)) as [Hr' Hi'].
    split; [|split; auto].
    unfold count_ok. rewrite step_length, Hcfg. exact Hc.
  - destruct IH as (Hc & Hr & Hi).
    destruct (applyAttractor_placed ax ay s e) as (Hb & Hcfg & _).
    destruct (tag_keeps _ _ (tag_of_placed _ _ Hb)) as [Hr' Hi'].
    split; [|split; auto].
    unfold count_ok. rewrite applyAttractor_length, Hcfg. exact Hc.
Qed.

Lemma reachable_engine_ok_witness :
  engine_ok (step (applyAttractor 10 10 10000
               (fst (setConfig (app_config 3 0.005 0.7 false)
                      (fst (new_engine (app_config 2 0.005 0.7 false) 800 600 zero_draws))
                      zero_draws)))).
Proof.
  apply reachable_engine_ok.
  apply reach_step, reach_applyAttractor, reach_setConfig, reach_new.
Defined.

(** ** Sums of forces *)

Lemma vadd_0_l v : vadd (0, 0) v = v.
Proof. destruct v. unfold vadd. cbn. f_equal; ring. Qed.

Lemma vadd_assoc a b c : vadd a (vadd b c) = vadd (vadd a b) c.
Proof. unfold vadd. cbn. f_equal; ring. Qed.

Lemma vadd_comm a b : vadd a b = vadd b a.
Proof. unfold vadd. f_equal; ring. Qed.

Lemma vsum_app l1 l2 : vsum (l1 ++ l2) = vadd (vsum l1) (vsum l2).
Proof.
  induction l1 as [|v l1 IH]; cbn [vsum app fold_right].
  - fold (vsum l2). rewrite vadd_0_l. reflexivity.
  - fold (vsum (l1 ++ l2)) (vsum l1). rewrite IH. apply vadd_assoc.
Qed.

Lemma vsum_add {A} (f g : A -> R * R) l :
  vsum (map (fun a => vadd (f a) (g a)) l) = vadd (vsum (map f l)) (vsum (map g l)).
Proof.
  induction l as [|a l IH]; cbn [vsum map fold_right].
  - unfold vadd. cbn. f_equal; ring.
  - fold (vsum (map (fun a => vadd (f a) (g a)) l)) (vsum (map f l)) (vsum (map g l)).
    rewrite IH. unfold vadd. cbn. f_equal; ring.
Qed.

Lemma accumulate_as_vadd G0 i p1 j l f :
  accumulate G0 i p1 j l f =
  match l with
  | [] => f
  | p2 :: l' =>
      accumulate G0 i p1 (S j) l'
        (if Nat.eqb i j then f else vadd f (pair_force G0 p1 p2))
  end.
Proof. destruct l; reflexivity. Qed.

(** The accumulator the loop starts from is added to what it gathers. *)
Lemma accumulate_start G0 i p1 : forall l j f,
  accumulate G0 i p1 j l f = vadd f (accumulate G0 i p1 j l (0, 0)).
Proof.
  induction l as [|p2 l IH]; intros j f.
  - cbn. unfold vadd. destruct f. cbn. f_equal; ring.
  - rewrite (accumulate_as_vadd _ _ _ _ _ f), (accumulate_as_vadd _ _ _ _ _ (0, 0)).
    destruct (Nat.eqb i j).
    + apply IH.
    + rewrite IH, (IH _ (vadd (0, 0) _)), vadd_0_l. symmetry. apply vadd_assoc.
Qed.

Lemma accumulate_shift G0 i p1 : forall l j f,
  accumulate G0 (S i) p1 (S j) l f = accumulate G0 i p1 j l f.
Proof.
  induction l as [|p2 l IH]; intros j f; [reflexivity|].
  rewrite !(accumulate_as_vadd _ _ _ _ (p2 :: l)).
  cbn [Nat.eqb]. apply IH.
Qed.

(** Past its own slot the loop of [i] skips nothing. *)
Lemma accumulate_past G0 i p1 : forall l j f,
  (i < j)%nat ->
  accumulate G0 i p1 j l f = vadd f (vsum (map (pair_force G0 p1) l)).
Proof.
  induction l as [|p2 l IH]; intros j f Hij.
  - cbn. destruct f. unfold vadd. cbn. f_equal; ring.
  - rewrite accumulate_as_vadd.
    destruct (Nat.eqb_spec i j); [lia|].
    rewrite IH by lia. cbn [map vsum fold_right].
    fold (vsum (map (pair_force G0 p1) l)). symmetry. apply vadd_assoc.
Qed.

Lemma net_force_head G0 p ps :
  net_force G0 (p :: ps) 0 p = vsum (map (pair_force G0 p) ps).
Proof.
  unfold net_force. rewrite accumulate_as_vadd. cbn [Nat.eqb].
  rewrite accumulate_past by lia. apply vadd_0_l.
Qed.

Lemma net_force_tail G0 p ps i q :
  net_force G0 (p :: ps) (S i) q = vadd (pair_force G0 q p) (net_force G0 ps i q).
Proof.
  unfold net_force. rewrite accumulate_as_vadd. cbn [Nat.eqb].
  rewrite accumulate_shift, accumulate_start, vadd_0_l. reflexivity.
Qed.

Lemma pair_force_anti G0 p q : vadd (pair_force G0 p q) (pair_force G0 q p) = (0, 0).
Proof.
  destruct (pair_force_opposite G0 p q) as [Hx Hy].
  unfold vadd. rewrite Hx, Hy. f_equal; ring.
Qed.

Lemma vsum_imap_map {A} (f : A -> R * R) l : vsum (imap (fun _ a => f a) l) = vsum (map f l).
Proof.
  f_equal. apply list_eq. intros i.
  rewrite list_lookup_imap. change (map f l) with (f <$> l).
  rewrite list_lookup_fmap. reflexivity.
Qed.

Lemma vsum_cons v l : vsum (v :: l) = vadd v (vsum l).
Proof. reflexivity. Qed.

Lemma vsum_imap_add {A} (f : A -> R * R) : forall (l : list A) (F : nat -> A -> R * R),
  vsum (imap (fun i a => vadd (f a) (F i a)) l) =
  vadd (vsum (map f l)) (vsum (imap F l)).
Proof.
  induction l as [|a l IHl]; intros F.
  - cbn. unfold vadd. cbn. f_equal; ring.
  - rewrite !imap_cons. cbn [map]. rewrite !vsum_cons.
    replace (imap ((fun i a => vadd (f a) (F i a)) ∘ S) l)
      with (imap (fun i a => vadd (f a) ((F ∘ S) i a)) l) by reflexivity.
    rewrite (IHl (F ∘ S)). unfold vadd. cbn. f_equal; ring.
Qed.

Lemma vsum_zero {A} (l : list A) : vsum (map (fun _ => (0, 0)) l) = (0, 0).
Proof.
  induction l as [|a l IHl]; [reflexivity|].
  cbn [map]. rewrite vsum_cons, IHl. apply vadd_0_l.
Qed.

Lemma total_force_zero G0 : forall ps, total_force G0 ps = (0, 0).
Proof.
  induction ps as [|p ps IH]; [reflexivity|].
  unfold total_force. rewrite imap_cons, vsum_cons.
  rewrite net_force_head.
  rewrite (imap_ext _ (fun i q => vadd (pair_force G0 q p) (net_force G0 ps i q)))
    by (intros; apply net_force_tail).
  rewrite (vsum_imap_add (fun q => pair_force G0 q p)).
  change (vadd (vsum (map (pair_force G0 p) ps))
               (vadd (vsum (map (fun q => pair_force G0 q p) ps))
                     (total_force G0 ps)) = (0, 0)).
  rewrite IH, vadd_assoc.
  rewrite <- (vsum_add (pair_force G0 p) (fun q => pair_force G0 q p)).
  rewrite (map_ext _ (fun _ => (0, 0))) by (intros; apply pair_force_anti).
  rewrite vsum_zero. apply vadd_0_l.
Qed.

(** X8. The forces the velocity loop of [step] accumulates sum to zero,
    so for particles of non-zero mass the loop leaves the total momentum
    (the sum of mass times velocity) as it was. *)
Theorem gravity_conserves_momentum (G0 : R) (ps : list Particle) :
  Forall (fun p => mass p <> 0) ps ->
  total_force G0 ps = (0, 0) /\
  momentum (accelerate_loop G0 (length ps) 0 ps) = momentum ps.
Proof.
  intros Hm. split; [apply total_force_zero|].
  rewrite accelerate_loop_imap. unfold momentum.
  change (map ?f ?l) with (f <$> l). rewrite fmap_imap.
  rewrite (imap_ext _ (fun i p => vadd (mass p * vx p, mass p * vy p)
                                       (net_force G0 ps i p)) ps).
  - rewrite (vsum_imap_add (fun p => (mass p * vx p, mass p * vy p))).
    match goal with
    | |- vadd _ ?b = _ => change b with (total_force G0 ps)
    end.
    rewrite total_force_zero. unfold vadd. cbn [fst snd].
    destruct (vsum _). cbn. f_equal; ring.
  - intros i p Hp. pose proof (Forall_lookup_1 _ _ _ _ Hm Hp) as Hne.
    unfold compose, accel, vadd. cbn [mass vx vy set_velocity fst snd].
    f_equal; field; exact Hne.
Qed.

Lemma gravity_conserves_momentum_witness :
  total_force 1 [body1; body2] = (0, 0) /\
  momentum (accelerate_loop 1 2 0 [body1; body2]) = momentum [body1; body2].
Proof.
  apply (gravity_conserves_momentum 1 [body1; body2]).
  constructor; [cbn; lra|]. constructor; [cbn; lra|]. constructor.
Defined.

Lemma soft_ratio_bound (K u d2 c : R) :
  0 < c -> c <= d2 -> Rabs u <= sqrt d2 ->
  Rabs (K / d2 * u / sqrt d2) <= Rabs K / c.
Proof.
  intros Hc Hd Hu.
  assert (Hd2 : 0 < d2) by lra.
  assert (Hs : 0 < sqrt d2) by (apply sqrt_lt_R0; lra).
  unfold Rdiv.
  rewrite !Rabs_mult, (Rabs_inv d2), (Rabs_inv (sqrt d2)).
  rewrite (Rabs_pos_eq d2) by lra. rewrite (Rabs_pos_eq (sqrt d2)) by lra.
  assert (HK : 0 <= Rabs K) by apply Rabs_pos.
  assert (Hu0 : 0 <= Rabs u) by apply Rabs_pos.
  assert (Hi1 : 0 < / d2) by (apply Rinv_0_lt_compat; lra).
  assert (Hi2 : / d2 <= / c) by (apply Rinv_le_contravar; lra).
  assert (Hi3 : 0 < / sqrt d2) by (apply Rinv_0_lt_compat; lra).
  assert (Hr : Rabs u * / sqrt d2 <= 1).
  { apply (Rmult_le_reg_r (sqrt d2)); [exact Hs|].
    rewrite Rmult_assoc, Rinv_l by lra. lra. }
  assert (Hr0 : 0 <= Rabs u * / sqrt d2) by nra.
  assert (Hz : 0 <= Rabs K * / d2) by nra.
  replace (Rabs K * / d2 * Rabs u * / sqrt d2)
    with ((Rabs K * / d2) * (Rabs u * / sqrt d2)) by ring.
  assert (Hz2 : Rabs K * / d2 <= Rabs K * / c) by nra.
  nra.
Qed.

Lemma soft_sqrt (c dx dy : R) :
  0 < c ->
  let d2 := dx * dx + dy * dy + c in
  c <= d2 /\ 0 < sqrt d2 /\ Rabs dx <= sqrt d2 /\ Rabs dy <= sqrt d2.
Proof.
  intros Hc d2.
  assert (H20 : c <= d2) by (unfold d2; nra).
  assert (Hs : 0 < sqrt d2) by (apply sqrt_lt_R0; lra).
  assert (Hq : sqrt d2 * sqrt d2 = d2) by (apply sqrt_sqrt; lra).
  repeat split; try assumption.
  - apply Rabs_le. set (s := sqrt d2) in *. unfold d2 in Hq. split; nra.
  - apply Rabs_le. set (s := sqrt d2) in *. unfold d2 in Hq. split; nra.
Qed.

(** X9. Each component of the force one particle contributes to another
    is at most |G m1 m2| / 20 in absolute value, however close the two
    are, and two particles at the same position contribute nothing to
    each other. *)
Theorem pair_force_bounded (G0 : R) (p1 p2 : Particle) :
  Rabs (fst (pair_force G0 p1 p2)) <= Rabs (G0 * mass p1 * mass p2) / softening /\
  Rabs (snd (pair_force G0 p1 p2)) <= Rabs (G0 * mass p1 * mass p2) / softening /\
  (x p1 = x p2 -> y p1 = y p2 -> pair_force G0 p1 p2 = (0, 0)).
Proof.
  unfold pair_force. cbn [fst snd].
  set (dx := x p2 - x p1). set (dy := y p2 - y p1).
  assert (Hc : 0 < softening) by (unfold softening; lra).
  destruct (soft_sqrt softening dx dy Hc) as (H20 & Hs & Hax & Hay).
  split; [apply soft_ratio_bound; assumption|].
  split; [apply soft_ratio_bound; assumption|].
  intros Hx Hy. unfold dx, dy. rewrite Hx, Hy.
  unfold Rdiv. f_equal; ring.
Qed.

Lemma pair_force_bounded_witness :
  pair_force 1 body1 (mkParticle 1 100 100 0 0 20 (sqrt 20 * 0.5) red) = (0, 0).
Proof.
  destruct (pair_force_bounded 1 body1 (mkParticle 1 100 100 0 0 20 (sqrt 20 * 0.5) red))
    as (_ & _ & H).
  apply H; reflexivity.
Defined.

(** ** Attractor, walls and the frame *)

(** X10. [applyAttractor] changes only the velocity of a particle (of
    non-zero mass); the change is a multiple k of the displacement to
    the attractor point, with k > 0 for a positive strength, k < 0 for a
    negative one and k = 0 for strength 0, and each of its components is
    at most |strength| / 100 in absolute value. *)
Theorem attract_direction_and_bound (ax ay s : R) (p : Particle) :
  mass p <> 0 ->
  let q := attract ax ay s p in
  placed q = placed p /\
  Rabs (vx q - vx p) <= Rabs s / 100 /\
  Rabs (vy q - vy p) <= Rabs s / 100 /\
  exists k, vx q - vx p = k * (ax - x p) /\ vy q - vy p = k * (ay - y p) /\
            (0 < s -> 0 < k) /\ (s < 0 -> k < 0) /\ (s = 0 -> k = 0).
Proof.
  intros Hm q.
  destruct (attract_kick ax ay s p Hm) as [Hx Hy]. fold q in Hx, Hy.
  set (dx := ax - x p) in *. set (dy := ay - y p) in *.
  destruct (soft_sqrt 100 dx dy) as (Hc & Hs & Hax & Hay); [lra|].
  set (d2 := dx * dx + dy * dy + 100) in *.
  assert (Hd2 : 0 < d2) by lra.
  assert (Hk : 0 < / (d2 * sqrt d2)).
  { apply Rinv_0_lt_compat. apply Rmult_lt_0_compat; assumption. }
  split; [reflexivity|].
  split; [|split].
  - rewrite Hx. replace (s * dx / (d2 * sqrt d2)) with (s / d2 * dx / sqrt d2)
      by (field; split; lra).
    apply soft_ratio_bound; [lra|exact Hc|exact Hax].
  - rewrite Hy. replace (s * dy / (d2 * sqrt d2)) with (s / d2 * dy / sqrt d2)
      by (field; split; lra).
    apply soft_ratio_bound; [lra|exact Hc|exact Hay].
  - exists (s * / (d2 * sqrt d2)). rewrite Hx, Hy. unfold Rdiv.
    split; [ring|]. split; [ring|].
    split; [|split]; intros H0; nra.
Qed.

Lemma attract_direction_witness :
  Rabs (vx (attract 100 0 10000 body1) - vx body1) <= Rabs 10000 / 100.
Proof.
  destruct (attract_direction_and_bound 100 0 10000 body1) as (_ & H & _).
  - cbn. lra.
  - exact H.
Defined.

(** X11. With 1 - friction and the elasticity both in [0, 1], the second
    loop of [step] never makes a velocity component larger in absolute
    value, wall contact or not. *)
Theorem move_never_speeds_up (fr el w h : R) (p : Particle) :
  0 <= fr <= 1 -> 0 <= el <= 1 ->
  Rabs (vx (move fr el w h p)) <= Rabs (vx p) /\
  Rabs (vy (move fr el w h p)) <= Rabs (vy p).
Proof.
  intros Hfr Hel.
  assert (Hdamp : forall v, Rabs (v * fr) <= Rabs v).
  { intros v. rewrite Rabs_mult, (Rabs_pos_eq fr) by lra.
    pose proof (Rabs_pos v). nra. }
  assert (Hbounce : forall v, Rabs (v * fr * - el) <= Rabs v).
  { intros v. rewrite Rabs_mult, Rabs_Ropp, (Rabs_pos_eq el) by lra.
    pose proof (Hdamp v). pose proof (Rabs_pos (v * fr)). nra. }
  unfold move.
  destruct (Rlt_dec _ _); [|destruct (Rgt_dec _ _)];
    (destruct (Rlt_dec _ _); [|destruct (Rgt_dec _ _)]);
    cbn [vx vy]; split; auto.
Qed.

Lemma move_never_speeds_up_witness :
  Rabs (vx (move (1 - 0.005) 0.7 800 600 edge_particle)) <= Rabs (vx edge_particle) /\
  Rabs (vy (move (1 - 0.005) 0.7 800 600 edge_particle)) <= Rabs (vy edge_particle).
Proof. apply move_never_speeds_up; lra. Defined.

Lemma net_force_geom G0 ps ps' i p p' :
  map geom ps = map geom ps' -> geom p = geom p' ->
  net_force G0 ps i p = net_force G0 ps' i p'.
Proof.
  intros Hps Hp. unfold net_force.
  rewrite (accumulate_geom G0 i p ps ps' 0 (0, 0) Hps).
  assert (Hgen : forall l j f, accumulate G0 i p j l f = accumulate G0 i p' j l f).
  { induction l as [|q l IH]; intros j f; [reflexivity|].
    cbn [accumulate].
    assert (Hpf : pair_force G0 p q = pair_force G0 p' q).
    { unfold pair_force. unfold geom in Hp.
      injection Hp as Hx Hy Hm. rewrite Hx, Hy, Hm. reflexivity. }
    rewrite Hpf. apply IH. }
  apply Hgen.
Qed.

(** X12. In a frame with the pointer active on a running engine, the
    change of the attractor and the change of gravity add up in each
    velocity, both taken at the positions before the frame; friction,
    move and walls then act once.  With the pointer inactive the frame
    is [step]. *)
Theorem frame_adds_both_kicks (mx my s : R) (e : PhysicsEngine) (i : nat) (p : Particle) :
  paused (config e) = false ->
  particles e !! i = Some p ->
  particles (frame mx my true s e) !! i =
    Some (move (1 - friction (config e)) (collisionElasticity (config e))
               (width e) (height e)
               (set_velocity p
                  (vx (attract mx my s p) +
                   fst (net_force (G (config e)) (particles e) i p) / mass p)
                  (vy (attract mx my s p) +
                   snd (net_force (G (config e)) (particles e) i p) / mass p))) /\
  frame mx my false s e = step e.
Proof.
  intros Hp Hi. split; [|reflexivity].
  unfold frame.
  destruct (applyAttractor_placed mx my s e) as (Hpl & Hc & Hw & Hh).
  rewrite step_running by (rewrite Hc; exact Hp).
  rewrite list_lookup_imap, Hc, Hw, Hh.
  unfold applyAttractor. rewrite Hp. cbn [particles with_particles].
  change (map ?f ?l) with (f <$> l). rewrite list_lookup_fmap, Hi. cbn [fmap option_fmap option_map].
  f_equal. f_equal. unfold accel.
  rewrite (net_force_geom (G (config e)) (attract mx my s <$> particles e) (particles e)
             i (attract mx my s p) p).
  - reflexivity.
  - change (?f <$> ?l) with (map f l). rewrite map_map. apply map_ext. reflexivity.
  - reflexivity.
Qed.

Lemma frame_adds_both_kicks_witness :
  particles (frame 0 0 true 10000 two_body) !! 0%nat =
    Some (move (1 - 0) 0.7 1000 1000
               (set_velocity body1
                  (vx (attract 0 0 10000 body1) +
                   fst (net_force 1 [body1; body2] 0 body1) / mass body1)
                  (vy (attract 0 0 10000 body1) +
                   snd (net_force 1 [body1; body2] 0 body1) / mass body1))).
Proof.
  destruct (frame_adds_both_kicks 0 0 10000 two_body 0 body1) as [H _].
  - reflexivity.
  - reflexivity.
  - exact H.
Defined.

(** ** Configuration changes *)

Lemma setConfig_config c e g : config (fst (setConfig c e g)) = c.
Proof.
  unfold setConfig.
  destruct (negb _); [rewrite init_config; reflexivity|].
  destruct (negb _); [rewrite refreshColors_config; reflexivity|reflexivity].
Qed.

Lemma with_config_same e : with_config e (config e) = e.
Proof. destruct e; reflexivity. Qed.

(** X13. After [setConfig c] the engine stores [c] and holds
    [particleCount c] particles, and a second [setConfig c] changes
    neither the engine nor the random stream. *)
Theorem setConfig_twice (c : SimulationConfig) (e : PhysicsEngine) (g g' : Rng) :
  let e1 := fst (setConfig c e g) in
  config e1 = c /\ length (particles e1) = particleCount c /\
  setConfig c e1 g' = (e1, g').
Proof.
  cbv zeta.
  pose proof (setConfig_config c e g) as Hc.
  pose proof (setConfig_count_ok c e g) as Hn. unfold count_ok in Hn. rewrite Hc in Hn.
  split; [exact Hc|]. split; [exact Hn|].
  rewrite setConfig_keep.
  - rewrite <- Hc at 2. rewrite with_config_same. reflexivity.
  - exact Hn.
  - rewrite Hc. reflexivity.
Qed.

Lemma color_draws_in_palette pal : forall n g,
  unit_draws g -> Forall (in_palette pal) (color_draws pal n g).
Proof.
  induction n as [|n IH]; intros g Hg; cbn [color_draws]; [constructor|].
  pose proof (generateColor_palette_ok pal g Hg) as Hc.
  pose proof (generateColor_rng pal g) as Hr.
  destruct (generateColor pal g) as [c g1]. cbn [fst snd] in *. subst g1.
  constructor; [exact Hc|]. apply IH. apply unit_draws_skip. exact Hg.
Qed.

Lemma colors_of_body pal ps ps' :
  map body ps' = map body ps ->
  Forall (fun p => in_palette pal (color p)) ps ->
  Forall (fun p => in_palette pal (color p)) ps'.
Proof.
  intros H Hf. apply Forall_lookup_2. intros i p' Hp'.
  assert (Ht : (body <$> ps') !! i = Some (body p'))
    by (rewrite list_lookup_fmap, Hp'; reflexivity).
  change (body <$> ps') with (map body ps') in Ht. rewrite H in Ht.
  change (map body ps) with (body <$> ps) in Ht.
  rewrite list_lookup_fmap in Ht.
  destruct (ps !! i) as [p|] eqn:Hp; [|discriminate].
  cbn in Ht. injection Ht as _ _ _ Hcol.
  pose proof (Forall_lookup_1 _ _ _ _ Hf Hp) as Hok. cbn in Hok.
  rewrite <- Hcol. exact Hok.
Qed.

Lemma Forall_of_colors (P : Color -> Prop) ps :
  Forall P (map color ps) -> Forall (fun p => P (color p)) ps.
Proof.
  induction ps as [|p ps IH]; intros H; [constructor|].
  cbn [map] in H. apply Forall_cons_1 in H. destruct H as [Hp Hps].
  constructor; [exact Hp|]. apply IH. exact Hps.
Qed.

(** X14. If every colour belongs to the configured palette, it still
    does after [setConfig] with any configuration, after [step] and
    after [reset], the draws being from [0, 1). *)
Theorem colors_follow_palette (c : SimulationConfig) (e : PhysicsEngine) (g : Rng) :
  unit_draws g ->
  colors_ok e ->
  colors_ok (fst (setConfig c e g)) /\
  colors_ok (step e) /\
  colors_ok (fst (reset e g)).
Proof.
  intros Hg He. split; [|split].
  - unfold colors_ok. rewrite setConfig_config.
    destruct (decide (length (particles e) = particleCount c)) as [Hn|Hn].
    + destruct (decide (palette (config e) = palette c)) as [Hp|Hp].
      * rewrite setConfig_keep by assumption. cbn [fst particles with_config].
        rewrite <- Hp. exact He.
      * rewrite setConfig_recolor by assumption.
        rewrite refreshColors_particles. cbn [config particles with_config].
        destruct (recolor_all_spec (palette c) (particles e) g) as (_ & _ & Hcol).
        apply Forall_of_colors. rewrite Hcol. apply color_draws_in_palette. exact Hg.
    + rewrite setConfig_reinit by assumption. rewrite init_particles.
      cbn [config width height with_config].
      apply init_loop_Forall_draws; [|exact Hg|constructor].
      intros i g0 Hg0. apply spawn_color. exact Hg0.
  - unfold colors_ok. destruct (step_body e) as (Hb & Hc & _). rewrite Hc.
    exact (colors_of_body _ _ _ Hb He).
  - unfold colors_ok, reset. rewrite init_config, init_particles.
    apply init_loop_Forall_draws; [|exact Hg|constructor].
    intros i g0 Hg0. apply spawn_color. exact Hg0.
Qed.

Lemma colors_follow_palette_witness :
  colors_ok (fst (setConfig (mkConfig 1 0 2 0.7 35 true false 10000 ocean)
                            (mkEngine [] (app_config 0 0.005 0.7 false) 800 600)
                            zero_draws)).
Proof.
  destruct (colors_follow_palette (mkConfig 1 0 2 0.7 35 true false 10000 ocean)
              (mkEngine [] (app_config 0 0.005 0.7 false) 800 600) zero_draws)
    as [H _].
  - intros n. cbn. lra.
  - constructor.
  - exact H.
Defined.

(** ** The kernel *)





(** ** The host side of the parallel engine *)

Lemma hue2rgb_range (p q t : R) :
  p <= q -> -1 <= t <= 2 -> p <= WebGpuEngine.hue2rgb p q t <= q.
Proof.
  intros Hpq Ht. unfold WebGpuEngine.hue2rgb.
  destruct (Rlt_dec t 0) as [H0|H0].
  - destruct (Rgt_dec (t + 1) 1) as [H1|H1]; [lra|].
    destruct (Rlt_dec _ _); [nra|]. destruct (Rlt_dec _ _); [lra|].
    destruct (Rlt_dec _ _); [nra|lra].
  - destruct (Rgt_dec t 1) as [H1|H1].
    + destruct (Rlt_dec _ _); [nra|]. destruct (Rlt_dec _ _); [lra|].
      destruct (Rlt_dec _ _); [nra|lra].
    + destruct (Rlt_dec _ _); [nra|]. destruct (Rlt_dec _ _); [lra|].
      destruct (Rlt_dec _ _); [nra|lra].
Qed.

Lemma hslToRgb_rgba (h s l : R) :
  0 <= h <= 1 -> 0 <= s <= 1 -> 0 <= l <= 1 ->
  rgba_ok (WebGpuEngine.hslToRgb h s l) /\
  (s = 0 -> WebGpuEngine.hslToRgb h s l = [l; l; l; 1]).
Proof.
  intros Hh Hs Hl. split.
  - unfold WebGpuEngine.hslToRgb, rgba_ok.
    destruct (Req_dec_T s 0) as [E|E].
    + exists l, l, l. repeat split; lra.
    + set (q := if Rlt_dec l 0.5 then l * (1 + s) else l + s - l * s).
      assert (Hq : 0 <= 2 * l - q /\ 2 * l - q <= q /\ q <= 1).
      { unfold q. destruct (Rlt_dec l 0.5); repeat split; nra. }
      destruct Hq as (Hp0 & Hpq & Hq1).
      pose proof (hue2rgb_range (2 * l - q) q (h + 1 / 3) Hpq) as H1.
      pose proof (hue2rgb_range (2 * l - q) q h Hpq) as H2.
      pose proof (hue2rgb_range (2 * l - q) q (h - 1 / 3) Hpq) as H3.
      eexists _, _, _. split; [reflexivity|].
      repeat split; lra.
  - intros E. unfold WebGpuEngine.hslToRgb.
    destruct (Req_dec_T s 0); [reflexivity|contradiction].
Qed.

Lemma gpu_generateColor_rng pal g :
  snd (WebGpuEngine.generateColor pal g) = skip (color_cost pal) g.
Proof.
  unfold skip.
  destruct pal; cbn [WebGpuEngine.generateColor random color_cost];
    try destruct (Rgt_dec _ _); cbn [snd draws cursor]; f_equal; lia.
Qed.

Lemma gpu_generateColor_rgba pal g :
  unit_draws g -> rgba_ok (fst (WebGpuEngine.generateColor pal g)).
Proof.
  intros Hg.
  pose proof (Hg (cursor g)) as H0.
  pose proof (Hg (S (cursor g))) as H1.
  destruct pal; cbn [WebGpuEngine.generateColor random];
    try destruct (Rgt_dec _ _); cbn [fst draws cursor];
    apply hslToRgb_rgba; lra.
Qed.

Lemma record_floats_rng pal w h g :
  snd (WebGpuEngine.record_floats pal w h g) = skip (6 + color_cost pal) g.
Proof.
  unfold WebGpuEngine.record_floats. cbn [random].
  pose proof (gpu_generateColor_rng pal
    (mkRng (draws g) (S (S (S (S (S (S (cursor g))))))))) as H.
  cbn [draws cursor] in *.
  destruct (WebGpuEngine.generateColor pal _) as [c g']. cbn [snd] in *. rewrite H.
  unfold skip. cbn [draws cursor]. f_equal. lia.
Qed.

Lemma record_floats_length pal w h g :
  length (fst (WebGpuEngine.record_floats pal w h g)) = 12%nat.
Proof.
  unfold WebGpuEngine.record_floats. cbn [random].
  destruct (WebGpuEngine.generateColor pal _). reflexivity.
Qed.

Lemma record_floats_ok pal w h g :
  unit_draws g -> record_ok (fst (WebGpuEngine.record_floats pal w h g)).
Proof.
  intros Hg. unfold WebGpuEngine.record_floats. cbn [random draws cursor].
  pose proof (gpu_generateColor_rgba pal
    (mkRng (draws g) (S (S (S (S (S (S (cursor g)))))))) Hg) as Hc.
  destruct (WebGpuEngine.generateColor pal _) as [c g'].
  cbn [fst] in *. destruct Hc as (r & gr & b & -> & Hr & Hgr & Hb).
  cbn [nth].
  pose proof (Hg (S (S (cursor g)))). pose proof (Hg (S (S (S (cursor g))))).
  pose proof (Hg (S (S (S (S (cursor g)))))).
  pose proof (Hg (S (S (S (S (S (cursor g))))))).
  eexists _, _, _, _, _, _, _, _. split; [reflexivity|].
  repeat split; try lra; nra.
Qed.

Lemma initial_records_spec pal w h : forall k g,
  let rs := fst (WebGpuEngine.initial_records k pal w h g) in
  length rs = k /\ length (concat rs) = (12 * k)%nat /\
  (unit_draws g -> Forall record_ok rs) /\
  snd (WebGpuEngine.initial_records k pal w h g) = skip (k * (6 + color_cost pal)) g.
Proof.
  induction k as [|k IH]; intros g; cbn [WebGpuEngine.initial_records].
  - cbn. repeat split; try constructor. unfold skip. destruct g. cbn. f_equal. lia.
  - pose proof (record_floats_rng pal w h g) as Hr.
    pose proof (record_floats_length pal w h g) as Hl.
    pose proof (record_floats_ok pal w h g) as Hok.
    destruct (WebGpuEngine.record_floats pal w h g) as [r g1]. cbn [fst snd] in *. subst g1.
    specialize (IH (skip (6 + color_cost pal) g)). cbv zeta in IH.
    destruct (WebGpuEngine.initial_records k pal w h _) as [rs g2]. cbn [fst snd] in *.
    destruct IH as (Hn & Hc & Hf & Hg2).
    split; [cbn; lia|]. split; [cbn [concat]; rewrite length_app; lia|].
    split.
    + intros Hg. constructor; [apply Hok; exact Hg|]. apply Hf. exact Hg.
    + rewrite Hg2, skip_skip. f_equal.
Qed.

(** X19. With a device, [setupBuffers] writes exactly 1000 records of 12
    floats, whatever [particleCount] the configuration has; with draws
    from [0, 1) every record has a mass in [2, 27), velocity components
    in [-1, 1), zeros in the unused slots and a colour in [0, 1] with
    alpha 1. *)
Theorem setupBuffers_fills_capacity (e : WebGpuEngine.State) (g : Rng) :
  WebGpuEngine.device e = true ->
  unit_draws g ->
  exists rs,
    WebGpuEngine.particleBuffer (fst (WebGpuEngine.setupBuffers e g)) = Some (concat rs) /\
    length rs = 1000%nat /\ length (concat rs) = (12 * 1000)%nat /\
    Forall record_ok rs /\
    WebGpuEngine.config (fst (WebGpuEngine.setupBuffers e g)) = WebGpuEngine.config e.
Proof.
  intros Hd Hg. unfold WebGpuEngine.setupBuffers. rewrite Hd. cbn [negb].
  destruct (initial_records_spec (palette (WebGpuEngine.config e))
              (WebGpuEngine.width e) (WebGpuEngine.height e)
              WebGpuEngine.capacity g) as (Hn & Hc & Hf & _).
  destruct (WebGpuEngine.initial_records _ _ _ _ _) as [rs g'].
  cbn [fst] in *. exists rs.
  split; [reflexivity|]. split; [exact Hn|]. split; [exact Hc|].
  split; [apply Hf; exact Hg|reflexivity].
Qed.

Lemma setupBuffers_witness :
  exists rs,
    WebGpuEngine.particleBuffer
      (fst (WebGpuEngine.setupBuffers
              (WebGpuEngine.mkState true None (app_config 200 0.005 0.7 false) 800 600)
              zero_draws)) = Some (concat rs) /\
    length rs = 1000%nat.
Proof.
  destruct (setupBuffers_fills_capacity
              (WebGpuEngine.mkState true None (app_config 200 0.005 0.7 false) 800 600)
              zero_draws) as (rs & Hb & Hn & _).
  - reflexivity.
  - intros n. cbn. lra.
  - exists rs. split; [exact Hb|exact Hn].
Defined.

Lemma setupBuffers_length e g d :
  WebGpuEngine.device e = true ->
  WebGpuEngine.particleBuffer (fst (WebGpuEngine.setupBuffers e g)) = Some d ->
  length d = (12 * 1000)%nat.
Proof.
  intros Hd. unfold WebGpuEngine.setupBuffers. rewrite Hd. cbn [negb].
  destruct (initial_records_spec (palette (WebGpuEngine.config e))
              (WebGpuEngine.width e) (WebGpuEngine.height e)
              WebGpuEngine.capacity g) as (_ & Hc & _).
  destruct (WebGpuEngine.initial_records _ _ _ _ _) as [rs g'].
  cbn [fst WebGpuEngine.particleBuffer] in *. intros E. injection E as <-. exact Hc.
Qed.

(** X20. [WebGpuEngine.init] fails without an adapter; with one it takes
    the size of the canvas, keeps the configuration and fills the buffer
    with 12 * 1000 floats. *)
Theorem gpu_init_result (cw ch : R) (e : WebGpuEngine.State) (g : Rng) :
  WebGpuEngine.init false cw ch e g = None /\
  exists e' g', WebGpuEngine.init true cw ch e g = Some (e', g') /\
    WebGpuEngine.device e' = true /\
    WebGpuEngine.width e' = cw /\ WebGpuEngine.height e' = ch /\
    WebGpuEngine.config e' = WebGpuEngine.config e /\
    exists d, WebGpuEngine.particleBuffer e' = Some d /\ length d = (12 * 1000)%nat.
Proof.
  split; [reflexivity|].
  unfold WebGpuEngine.init. cbn [negb].
  pose proof (setupBuffers_length
                (WebGpuEngine.mkState true (WebGpuEngine.particleBuffer e)
                   (WebGpuEngine.config e) cw ch) g) as Hlen.
  unfold WebGpuEngine.setupBuffers in *.
  cbn [WebGpuEngine.device negb WebGpuEngine.config WebGpuEngine.width
       WebGpuEngine.height] in *.
  destruct (WebGpuEngine.initial_records _ _ _ _ _) as [rs g'].
  eexists _, _. split; [reflexivity|].
  cbn [fst WebGpuEngine.device WebGpuEngine.width WebGpuEngine.height
       WebGpuEngine.config WebGpuEngine.particleBuffer] in *.
  repeat split. exists (concat rs). split; [reflexivity|].
  apply Hlen; reflexivity.
Qed.

(** X21. [WebGpuEngine.setConfig] keeps the buffer and the random stream
    when neither the palette nor the count changes; when one of them
    does and a device is present it samples all 1000 records anew (the
    capacity stays 1000 whatever count is asked for); without a device
    it writes nothing. *)
Theorem gpu_setConfig_cases (c : SimulationConfig) (e : WebGpuEngine.State) (g : Rng) :
  (palette (WebGpuEngine.config e) = palette c ->
   particleCount (WebGpuEngine.config e) = particleCount c ->
   WebGpuEngine.setConfig c e g =
     (WebGpuEngine.mkState (WebGpuEngine.device e) (WebGpuEngine.particleBuffer e) c
        (WebGpuEngine.width e) (WebGpuEngine.height e), g)) /\
  (WebGpuEngine.device e = true ->
   palette (WebGpuEngine.config e) <> palette c \/
   particleCount (WebGpuEngine.config e) <> particleCount c ->
   exists d, WebGpuEngine.particleBuffer (fst (WebGpuEngine.setConfig c e g)) = Some d /\
             length d = (12 * 1000)%nat /\
             snd (WebGpuEngine.setConfig c e g) =
               skip (1000 * (6 + color_cost (palette c))) g) /\
  (WebGpuEngine.device e = false ->
   WebGpuEngine.particleBuffer (fst (WebGpuEngine.setConfig c e g)) =
     WebGpuEngine.particleBuffer e /\
   snd (WebGpuEngine.setConfig c e g) = g).
Proof.
  split; [|split].
  - intros Hp Hn. unfold WebGpuEngine.setConfig.
    rewrite bool_decide_eq_true_2 by exact Hp. rewrite Hn, Nat.eqb_refl. reflexivity.
  - intros Hd Hch. unfold WebGpuEngine.setConfig.
    assert (Hb : negb (bool_decide (palette (WebGpuEngine.config e) = palette c))
                 || negb (Nat.eqb (particleCount (WebGpuEngine.config e)) (particleCount c))
                 = true).
    { destruct Hch as [Hp|Hn].
      - rewrite bool_decide_eq_false_2 by exact Hp. reflexivity.
      - apply Nat.eqb_neq in Hn. rewrite Hn. apply orb_true_r. }
    rewrite Hb.
    unfold WebGpuEngine.setupBuffers.
    cbn [WebGpuEngine.device WebGpuEngine.config WebGpuEngine.width WebGpuEngine.height].
    rewrite Hd. cbn [negb].
    destruct (initial_records_spec (palette c) (WebGpuEngine.width e)
                (WebGpuEngine.height e) WebGpuEngine.capacity g) as (_ & Hc & _ & Hs).
    destruct (WebGpuEngine.initial_records _ _ _ _ _) as [rs g'].
    cbn [fst snd WebGpuEngine.particleBuffer] in *.
    exists (concat rs). split; [reflexivity|]. split; [exact Hc|exact Hs].
  - intros Hd. unfold WebGpuEngine.setConfig, WebGpuEngine.setupBuffers.
    cbn [WebGpuEngine.device]. rewrite Hd. cbn [negb].
    destruct (_ || _); split; reflexivity.
Qed.

Lemma gpu_setConfig_witness :
  exists d,
    WebGpuEngine.particleBuffer
      (fst (WebGpuEngine.setConfig (app_config 50 0.005 0.7 false)
              (WebGpuEngine.mkState true None (app_config 200 0.005 0.7 false) 800 600)
              zero_draws)) = Some d /\
    length d = (12 * 1000)%nat.
Proof.
  destruct (gpu_setConfig_cases (app_config 50 0.005 0.7 false)
              (WebGpuEngine.mkState true None (app_config 200 0.005 0.7 false) 800 600)
              zero_draws) as (_ & H & _).
  destruct H as (d & Hb & Hl & _).
  - reflexivity.
  - right. cbn. lia.
  - exists d. split; [exact Hb|exact Hl].
Defined.

(** X22. The workgroups of 64 workers that [render] dispatches cover every
    index below [particleCount] and leave fewer than 64 workers
    without a particle. *)
Theorem workgroups_cover (c : SimulationConfig) :
  (Z.of_nat (particleCount c) <= 64 * WebGpuEngine.workgroups c
     < Z.of_nat (particleCount c) + 64)%Z.
Proof.
  unfold WebGpuEngine.workgroups.
  destruct (Zceil_bound (INR (particleCount c) / 64)) as [Hlo Hhi].
  rewrite INR_IZR_INZ in *.
  set (n := Z.of_nat (particleCount c)) in *.
  set (k := Zceil (IZR n / 64)) in *.
  split.
  - apply le_IZR. rewrite mult_IZR. lra.
  - apply lt_IZR. rewrite plus_IZR, mult_IZR. lra.
Qed.

(** ** Statements for the methods *)

(** X1. With draws from [0, 1), [generateColor] returns a colour of the
    palette's row of the table (hue range, saturation, lightness), and
    it takes one draw, two for cyberpunk. *)
Theorem generateColor_in_palette (pal : ColorPalette) (g : Rng) :
  unit_draws g ->
  in_palette pal (fst (generateColor pal g)) /\
  snd (generateColor pal g) = skip (color_cost pal) g.
Proof.
  intros Hg. split; [apply generateColor_palette_ok; exact Hg|apply generateColor_rng].
Qed.

Lemma generateColor_in_palette_witness :
  in_palette cyberpunk (fst (generateColor cyberpunk zero_draws)) /\
  snd (generateColor cyberpunk zero_draws) = skip 2 zero_draws.
Proof.
  apply (generateColor_in_palette cyberpunk zero_draws). intros n. cbn. lra.
Defined.

(** X5. [step] leaves the id, mass, radius and colour of every particle,
    the number of particles, the configuration and the domain as they
    are: it writes positions and velocities only. *)
Theorem step_frame (e : PhysicsEngine) :
  map body (particles (step e)) = map body (particles e) /\
  length (particles (step e)) = length (particles e) /\
  config (step e) = config e /\
  width (step e) = width e /\ height (step e) = height e.
Proof.
  destruct (step_body e) as (Hb & Hc & Hw & Hh).
  split; [exact Hb|]. split; [apply step_length|]. auto.
Qed.

(** X6. [applyAttractor] leaves the id, position, mass, radius and colour
    of every particle, the configuration and the domain as they are: it
    writes velocities only. *)
Theorem applyAttractor_frame (ax ay s : R) (e : PhysicsEngine) :
  map placed (particles (applyAttractor ax ay s e)) = map placed (particles e) /\
  config (applyAttractor ax ay s e) = config e /\
  width (applyAttractor ax ay s e) = width e /\
  height (applyAttractor ax ay s e) = height e.
Proof.
  unfold applyAttractor. destruct (paused (config e)) eqn:Hp.
  - repeat split.
  - cbn [particles config width height with_particles].
    split; [|repeat split].
    rewrite map_map. apply map_ext. intros p. reflexivity.
Qed.

(** X7. Although the velocity loop of [step] writes into the array while
    it runs, the particle at index [i] of a running engine ends as if
    every force had been taken from the array as it was before the
    tick: its velocity gains net force / mass, then friction, move and
    walls apply. *)
Theorem step_reads_pre_tick_state (e : PhysicsEngine) (i : nat) (p : Particle) :
  paused (config e) = false ->
  particles e !! i = Some p ->
  particles (step e) !! i =
    Some (move (1 - friction (config e)) (collisionElasticity (config e))
               (width e) (height e)
               (set_velocity p
                  (vx p + fst (net_force (G (config e)) (particles e) i p) / mass p)
                  (vy p + snd (net_force (G (config e)) (particles e) i p) / mass p))).
Proof.
  intros Hp Hi. rewrite step_running by exact Hp.
  rewrite list_lookup_imap, Hi. reflexivity.
Qed.

Lemma step_reads_pre_tick_witness :
  particles (step two_body) !! 1%nat =
    Some (move (1 - 0) 0.7 1000 1000
               (set_velocity body2
                  (vx body2 + fst (net_force 1 [body1; body2] 1 body2) / mass body2)
                  (vy body2 + snd (net_force 1 [body1; body2] 1 body2) / mass body2))).
Proof.
  apply (step_reads_pre_tick_state two_body 1 body2); reflexivity.
Defined.

(** X17. For hue, saturation and lightness in [0, 1], [hslToRgb] returns
    red, green and blue in [0, 1] and alpha 1; with saturation 0 all
    three are the lightness. *)
Theorem hslToRgb_range (h s l : R) :
  0 <= h <= 1 -> 0 <= s <= 1 -> 0 <= l <= 1 ->
  rgba_ok (WebGpuEngine.hslToRgb h s l) /\
  (s = 0 -> WebGpuEngine.hslToRgb h s l = [l; l; l; 1]).
Proof.
  intros Hh Hs Hl. split.
  - unfold WebGpuEngine.hslToRgb, rgba_ok.
    destruct (Req_dec_T s 0) as [E|E].
    + exists l, l, l. repeat split; lra.
    + set (q := if Rlt_dec l 0.5 then l * (1 + s) else l + s - l * s).
      assert (Hq : 0 <= 2 * l - q /\ 2 * l - q <= q /\ q <= 1).
      { unfold q. destruct (Rlt_dec l 0.5); repeat split; nra. }
      destruct Hq as (Hp0 & Hpq & Hq1).
      pose proof (hue2rgb_range (2 * l - q) q (h + 1 / 3) Hpq) as H1.
      pose proof (hue2rgb_range (2 * l - q) q h Hpq) as H2.
      pose proof (hue2rgb_range (2 * l - q) q (h - 1 / 3) Hpq) as H3.
      eexists _, _, _. split; [reflexivity|].
      repeat split; lra.
  - intros E. unfold WebGpuEngine.hslToRgb.
    destruct (Req_dec_T s 0); [reflexivity|contradiction].
Qed.

Lemma hslToRgb_range_witness :
  rgba_ok (WebGpuEngine.hslToRgb 0.5 1 0.5).
Proof.
  destruct (hslToRgb_range 0.5 1 0.5) as [H _]; [lra|lra|lra|exact H].
Defined.

(** X18. With draws from [0, 1), [WebGpuEngine.generateColor] returns, for
    every palette, four floats: red, green and blue in [0, 1] and
    alpha 1; it takes one draw, two for cyberpunk. *)
Theorem gpu_generateColor_valid (pal : ColorPalette) (g : Rng) :
  unit_draws g ->
  rgba_ok (fst (WebGpuEngine.generateColor pal g)) /\
  snd (WebGpuEngine.generateColor pal g) = skip (color_cost pal) g.
Proof.
  intros Hg. split; [apply gpu_generateColor_rgba; exact Hg|apply gpu_generateColor_rng].
Qed.

Lemma gpu_generateColor_witness :
  rgba_ok (fst (WebGpuEngine.generateColor monochrome zero_draws)) /\
  snd (WebGpuEngine.generateColor monochrome zero_draws) = skip 1 zero_draws.
Proof.
  apply (gpu_generateColor_valid monochrome zero_draws). intros n. cbn. lra.
Defined.
